(** * The typedoc reflection transformer of [external/build/lib/dts-parse.js]

    A shallow embedding of the class [Transform] and a verification of the
    properties its specification states.

    The transformer receives the JSON tree that typedoc's serializer builds,
    walks it depth first, prunes private and underscore-prefixed children,
    writes the computed fields [_name], [_feature] and [_event] into the
    objects of the tree, and collects the namespaces that have a
    non-namespace child in an object used as a map.

    Objects are mutated in place and the map holds references to them, so the
    model has a store: a finite map from object identities to objects. *)

From Stdlib Require Import ZArith.
From stdpp Require Import gmap strings list fin_maps.

Set Warnings "-register-all".
Open Scope string_scope.
Open Scope list_scope.

(** ** Strings

    A string is held as the bytes of its UTF-8 encoding. The three string
    operations of the source besides equality are [trim], [startsWith] and
    [join]. *)

Module JsString.

(** The code points of the ECMAScript productions WhiteSpace and
    LineTerminator, each as its UTF-8 bytes: TAB, LF, VT, FF, CR, SP,
    U+00A0, U+1680, U+2000 to U+200A, U+2028, U+2029, U+202F, U+205F,
    U+3000 and U+FEFF. *)
Definition whiteSpace : list (list nat) :=
  [ [9]; [10]; [11]; [12]; [13]; [32]; [194; 160]; [225; 154; 128];
    [226; 128; 128]; [226; 128; 129]; [226; 128; 130]; [226; 128; 131];
    [226; 128; 132]; [226; 128; 133]; [226; 128; 134]; [226; 128; 135];
    [226; 128; 136]; [226; 128; 137]; [226; 128; 138];
    [226; 128; 168]; [226; 128; 169]; [226; 128; 175];
    [226; 129; 159]; [227; 128; 128]; [239; 187; 191] ].

Definition bytes (s : string) : list nat :=
  List.map Ascii.nat_of_ascii (String.list_ascii_of_string s).

Definition of_bytes (l : list nat) : string :=
  String.string_of_list_ascii (List.map Ascii.ascii_of_nat l).

(** [strip w s] removes the prefix [w] from [s] when it is there. *)
Fixpoint strip (w s : list nat) : option (list nat) :=
  match w, s with
  | [], _ => Some s
  | a :: w', b :: s' => if Nat.eqb a b then strip w' s' else None
  | _ :: _, [] => None
  end.

Fixpoint strip_any (ws : list (list nat)) (s : list nat) : option (list nat) :=
  match ws with
  | [] => None
  | w :: ws' =>
      match strip w s with
      | Some r => Some r
      | None => strip_any ws' s
      end
  end.

(** Every token is at least one byte long, so [length s] rounds are enough
    to remove all leading tokens. *)
Fixpoint strip_all (rounds : nat) (ws : list (list nat)) (s : list nat) : list nat :=
  match rounds with
  | O => s
  | S rounds' =>
      match strip_any ws s with
      | Some r => strip_all rounds' ws r
      | None => s
      end
  end.

Definition trimStart (s : list nat) : list nat :=
  strip_all (length s) whiteSpace s.

Definition trimEnd (s : list nat) : list nat :=
  rev (strip_all (length s) (List.map (@rev nat) whiteSpace) (rev s)).

(** [String.prototype.trim] *)
Definition trim (s : string) : string :=
  of_bytes (trimEnd (trimStart (bytes s))).

(** [s.startsWith(p)] *)
Definition startsWith (s p : string) : bool := String.prefix p s.

(** [parts.join(sep)] *)
Definition join (sep : string) (parts : list string) : string :=
  String.concat sep parts.

End JsString.

(** ** The data of typedoc's JSON output

    Optional properties are options. Only the properties that the
    transformer reads or writes are kept. *)

(** [flags] of a reflection; [isPrivate] is read for its truthiness. *)
Record Flags := { isPrivate : option bool }.

(** One tag of a comment: [{tag, text}]. *)
Record CommentTag := { tag : string; text : string }.

Record Comment := { tags : option (list CommentTag) }.

(** A type descriptor ([typedoc.JSONOutput.SomeType]): its discriminant
    [type], the [name] of a reference or intrinsic type, the [typeArguments]
    of a reference and the [declaration] of a reflection type, whose
    [signatures] carry [parameters]. *)
Inductive SomeType : Type :=
  | Build_SomeType (type : string) (name : option string)
      (typeArguments : option (list SomeType))
      (declaration : option Declaration)
with Declaration : Type :=
  | Build_Declaration (signatures : option (list Signature))
with Signature : Type :=
  | Build_Signature (parameters : option (list ParameterReflection))
with ParameterReflection : Type :=
  | Build_ParameterReflection (id : Z) (name : string) (kind : Z) (flags : Flags)
      (type : option SomeType).

Module Ty.
Definition type (t : SomeType) : string :=
  let 'Build_SomeType x _ _ _ := t in x.
Definition name (t : SomeType) : option string :=
  let 'Build_SomeType _ x _ _ := t in x.
Definition typeArguments (t : SomeType) : option (list SomeType) :=
  let 'Build_SomeType _ _ x _ := t in x.
Definition declaration (t : SomeType) : option Declaration :=
  let 'Build_SomeType _ _ _ x := t in x.
Definition signatures (d : Declaration) : option (list Signature) :=
  let 'Build_Declaration x := d in x.
Definition parameters (s : Signature) : option (list ParameterReflection) :=
  let 'Build_Signature x := s in x.
End Ty.

(** The object shared by the two deprecation tags. *)
Record Deprecated := { value : string; deprecated_since : option string }.

(** [FeatureInfo]: [channel] is always there, the rest is optional. *)
Record FeatureInfo := {
  channel : string;
  platformAppsOnly : option bool;
  since : option string;
  permissions : option (list string);
  manifestKeys : option (list string);
  deprecated : option Deprecated;
  minManifest : option string;
  maxManifest : option string;
  disallowServiceWorkers : option bool;
}.

(** The value of [_event]. *)
Record ExtendedEvent := { addListenerParameters : option (list ParameterReflection) }.

(** A declaration reflection, with the three computed properties of
    [ExtendedDeclarationReflection]. [C] is what [children] holds: references
    in the store, sub-trees in a JSON document. *)
Record DeclarationReflection (C : Type) := {
  name : string;
  kindString : option string;
  children : option (list C);
  flags : option Flags;
  comment : option Comment;
  type : option SomeType;
  _name : option string;
  _feature : option FeatureInfo;
  _event : option ExtendedEvent;
}.

Arguments name {C} _.
Arguments kindString {C} _.
Arguments children {C} _.
Arguments flags {C} _.
Arguments comment {C} _.
Arguments type {C} _.
Arguments _name {C} _.
Arguments _feature {C} _.
Arguments _event {C} _.
Arguments Build_DeclarationReflection {C}.

Section Setters.
Context {C : Type}.
Implicit Type n : DeclarationReflection C.

Definition set_children {D} (cs : option (list D)) n : DeclarationReflection D :=
    {| name := name n; kindString := kindString n; children := cs;
       flags := flags n; comment := comment n; type := type n;
       _name := _name n; _feature := _feature n; _event := _event n |}.

Definition set__name (x : string) n : DeclarationReflection C :=
    {| name := name n; kindString := kindString n; children := children n;
       flags := flags n; comment := comment n; type := type n;
       _name := Some x; _feature := _feature n; _event := _event n |}.

Definition set__feature (x : FeatureInfo) n : DeclarationReflection C :=
    {| name := name n; kindString := kindString n; children := children n;
       flags := flags n; comment := comment n; type := type n;
       _name := _name n; _feature := Some x; _event := _event n |}.

Definition set__event (x : ExtendedEvent) n : DeclarationReflection C :=
    {| name := name n; kindString := kindString n; children := children n;
       flags := flags n; comment := comment n; type := type n;
       _name := _name n; _feature := _feature n; _event := Some x |}.
End Setters.

(** ** The store *)

(** An object identity. The objects of a JSON document are told apart by
    their position: the indices to follow from the root through the
    [children] arrays. *)
Abbreviation loc := (list nat).

(** An object of the store: its children are references. *)
Abbreviation node := (DeclarationReflection loc).

(** The errors the transformer throws. *)
Inductive Error :=
  | ReferenceWithoutArgument (name : option string)
      (* got reference to ${node.type.name} without argument *)
  | UnexpectedFirstArgument (firstArgument : SomeType).
      (* unexpected first argument for declarative event: ... *)

(** The state of a [Transform]: the store that [this.project] points into,
    and the own properties of [this.namespaces]. *)
Record State := {
  heap : gmap loc node;
  namespaces : gmap string loc;
}.

(** What a method call comes to. [Dangling] is a reference to no object and
    [OutOfFuel] an exhausted recursion bound: neither is a behaviour of the
    program, and both are shown not to arise on a loaded tree. *)
Inductive result (A : Type) :=
  | Ok (a : A) (s : State)
  | Throw (e : Error)
  | Dangling
  | OutOfFuel.

Arguments Ok {A} _ _.
Arguments Throw {A} _.
Arguments Dangling {A}.
Arguments OutOfFuel {A}.

Definition M (A : Type) : Type := State → result A.

Definition ret {A} (a : A) : M A := λ s, Ok a s.

Definition bind {A B} (m : M A) (k : A → M B) : M B :=
  λ s, match m s with
       | Ok a s' => k a s'
       | Throw e => Throw e
       | Dangling => Dangling
       | OutOfFuel => OutOfFuel
       end.

Definition throw {A} (e : Error) : M A := λ _, Throw e.

Notation "'let!' x ':=' m 'in' k" := (bind m (λ x, k))
  (at level 10, x pattern, m at level 100, k at level 200, only parsing).

(** Reading an object through a reference. *)
Definition deref (l : loc) : M node :=
  λ s, match heap s !! l with
       | Some n => Ok n s
       | None => Dangling
       end.

(** Writing properties of the object behind a reference. *)
Definition update (l : loc) (f : node → node) : M unit :=
  λ s, match heap s !! l with
       | Some n => Ok tt {| heap := <[l := f n]> (heap s); namespaces := namespaces s |}
       | None => Dangling
       end.

(** [obj[key] = v] on an ordinary object: the key [__proto__] reaches the
    setter of [Object.prototype] and makes no own property. *)
Definition set_property (key : string) (v : loc) (obj : gmap string loc) : gmap string loc :=
  if bool_decide (key = "__proto__") then obj else <[key := v]> obj.

Fixpoint mapM {A B} (f : A → M B) (l : list A) : M (list B) :=
  match l with
  | [] => ret []
  | a :: l' => let! b := f a in let! bs := mapM f l' in ret (b :: bs)
  end.

(** [for (const c of l) body(c)] *)
Fixpoint forM_ {A} (f : A → M unit) (l : list A) : M unit :=
  match l with
  | [] => ret tt
  | a :: l' => let! _ := f a in forM_ f l'
  end.

(** [arr.some(f)] with a callback that reads the store *)
Fixpoint someM {A} (f : A → M bool) (l : list A) : M bool :=
  match l with
  | [] => ret false
  | a :: l' => let! b := f a in if b then ret true else someM f l'
  end.

(** [arr.filter(f)] with a callback that reads the store *)
Fixpoint filterM {A} (f : A → M bool) (l : list A) : M (list A) :=
  match l with
  | [] => ret []
  | a :: l' =>
      let! b := f a in
      let! r := filterM f l' in
      ret (if b then a :: r else r)
  end.

(** ** The class [Transform] *)

Module Transform.

Definition chromeEventRefTypes : list string :=
  ["CustomChromeEvent"; "events.Event"; "Event"].

Section FeatureSetters.
Implicit Type o : FeatureInfo.

Definition with_channel (x : string) o : FeatureInfo :=
  {| channel := x; platformAppsOnly := platformAppsOnly o; since := since o;
     permissions := permissions o; manifestKeys := manifestKeys o;
     deprecated := deprecated o; minManifest := minManifest o;
     maxManifest := maxManifest o;
     disallowServiceWorkers := disallowServiceWorkers o |}.

Definition with_platformAppsOnly (x : bool) o : FeatureInfo :=
  {| channel := channel o; platformAppsOnly := Some x; since := since o;
     permissions := permissions o; manifestKeys := manifestKeys o;
     deprecated := deprecated o; minManifest := minManifest o;
     maxManifest := maxManifest o;
     disallowServiceWorkers := disallowServiceWorkers o |}.

Definition with_since (x : string) o : FeatureInfo :=
  {| channel := channel o; platformAppsOnly := platformAppsOnly o;
     since := Some x;
     permissions := permissions o; manifestKeys := manifestKeys o;
     deprecated := deprecated o; minManifest := minManifest o;
     maxManifest := maxManifest o;
     disallowServiceWorkers := disallowServiceWorkers o |}.

Definition with_permissions (x : list string) o : FeatureInfo :=
  {| channel := channel o; platformAppsOnly := platformAppsOnly o;
     since := since o;
     permissions := Some x; manifestKeys := manifestKeys o;
     deprecated := deprecated o; minManifest := minManifest o;
     maxManifest := maxManifest o;
     disallowServiceWorkers := disallowServiceWorkers o |}.

Definition with_manifestKeys (x : list string) o : FeatureInfo :=
  {| channel := channel o; platformAppsOnly := platformAppsOnly o;
     since := since o;
     permissions := permissions o; manifestKeys := Some x;
     deprecated := deprecated o; minManifest := minManifest o;
     maxManifest := maxManifest o;
     disallowServiceWorkers := disallowServiceWorkers o |}.

Definition with_deprecated (x : Deprecated) o : FeatureInfo :=
  {| channel := channel o; platformAppsOnly := platformAppsOnly o;
     since := since o;
     permissions := permissions o; manifestKeys := manifestKeys o;
     deprecated := Some x; minManifest := minManifest o;
     maxManifest := maxManifest o;
     disallowServiceWorkers := disallowServiceWorkers o |}.

Definition with_minManifest (x : string) o : FeatureInfo :=
  {| channel := channel o; platformAppsOnly := platformAppsOnly o;
     since := since o;
     permissions := permissions o; manifestKeys := manifestKeys o;
     deprecated := deprecated o; minManifest := Some x;
     maxManifest := maxManifest o;
     disallowServiceWorkers := disallowServiceWorkers o |}.

Definition with_maxManifest (x : string) o : FeatureInfo :=
  {| channel := channel o; platformAppsOnly := platformAppsOnly o;
     since := since o;
     permissions := permissions o; manifestKeys := manifestKeys o;
     deprecated := deprecated o; minManifest := minManifest o;
     maxManifest := Some x;
     disallowServiceWorkers := disallowServiceWorkers o |}.

Definition with_disallowServiceWorkers (x : bool) o : FeatureInfo :=
  {| channel := channel o; platformAppsOnly := platformAppsOnly o;
     since := since o;
     permissions := permissions o; manifestKeys := manifestKeys o;
     deprecated := deprecated o; minManifest := minManifest o;
     maxManifest := maxManifest o;
     disallowServiceWorkers := Some x |}.

End FeatureSetters.

(** The callback of [tags.forEach] in [_processTags]. It runs on the two
    objects it closes over: [out] and [deprecated]. [out.deprecated] is a
    reference to [deprecated]; both tags that write into [deprecated] assign
    that reference in the same case, so the copy held here is current
    whenever it is there. *)
Definition processTag (acc : FeatureInfo * Deprecated) (t : CommentTag)
  : FeatureInfo * Deprecated :=
  let '(out, deprecated) := acc in
  let text := JsString.trim (text t) in
  if bool_decide (tag t = "chrome-platform-apps") then
    (with_platformAppsOnly true out, deprecated)
  else if bool_decide (tag t = "since") then
    (with_since text out, deprecated)
  else if bool_decide (tag t = "chrome-channel") then
    (with_channel text out, deprecated)
  else if bool_decide (tag t = "chrome-permission") then
    (with_permissions (default [] (permissions out) ++ [text]) out, deprecated)
  else if bool_decide (tag t = "chrome-manifest") then
    (with_manifestKeys (default [] (manifestKeys out) ++ [text]) out, deprecated)
  else if bool_decide (tag t = "deprecated") then
    let d := {| value := text; deprecated_since := deprecated_since deprecated |} in
    (with_deprecated d out, d)
  else if bool_decide (tag t = "chrome-deprecated-since") then
    let d := {| value := value deprecated; deprecated_since := Some text |} in
    (with_deprecated d out, d)
  else if bool_decide (tag t = "chrome-min-manifest") then
    (with_minManifest text out, deprecated)
  else if bool_decide (tag t = "chrome-max-manifest") then
    (with_maxManifest text out, deprecated)
  else if bool_decide (tag t = "chrome-disallow-service-workers") then
    (with_disallowServiceWorkers true out, deprecated)
  else
    (out, deprecated).

Definition _processTags (tags : list CommentTag) : FeatureInfo :=
  let deprecated := {| value := ""; deprecated_since := None |} in
  let out :=
    {| channel := "stable"; platformAppsOnly := None; since := None;
       permissions := None; manifestKeys := None; deprecated := None;
       minManifest := None; maxManifest := None;
       disallowServiceWorkers := None |} in
  fst (fold_left processTag tags (out, deprecated)).

(** [filter(node)]:
    [!(node.flags?.isPrivate || node.name.startsWith('_'))] *)
Definition filter {C} (node : DeclarationReflection C) : bool :=
  negb (default false (flags node ≫= isPrivate)
        || JsString.startsWith (name node) "_").

(** [arr?.[0]] *)
Definition first {A} (arr : option (list A)) : option A :=
  match arr with
  | Some (x :: _) => Some x
  | _ => None
  end.

(** The name [visit] computes first: the names of the parents that are not
    of kind Project, then the node's own, the empty ones dropped, joined
    with dots. *)
Definition fqdn {C D} (parents : list (DeclarationReflection C))
    (node : DeclarationReflection D) : string :=
  let parts :=
    (name <$> base.filter (λ parent, kindString parent ≠ Some "Project") parents)
    ++ [name node] in
  JsString.join "." (base.filter (λ x, x ≠ "") parts).

(** The parameters [visit] finds for a reference to an event type with the
    first argument [firstArgument]: the [let parameters] and the three
    branches that assign it or throw. *)
Definition parameters (type firstArgument : SomeType)
  : Error + option (list ParameterReflection) :=
  if bool_decide (Ty.name type = Some "CustomChromeEvent") then
    inr (s ← first (Ty.declaration firstArgument ≫= Ty.signatures);
         Ty.parameters s)
  else if bool_decide (Ty.type firstArgument = "intrinsic") then
    if bool_decide (Ty.name firstArgument ≠ Some "never") then
      inl (UnexpectedFirstArgument firstArgument)
    else inr None
  else
    inr (Some [Build_ParameterReflection (-1)%Z "callback" 32768%Z
                 {| isPrivate := None |}
                 (first (Ty.typeArguments type))]).

(** The part of [visit] after the namespace check: the two computed
    properties, then the event reference. *)
Definition annotate (node : loc) (fqdn : string) : M unit :=
  let! _ := update node (set__name fqdn) in
  let! n := deref node in
  let! _ := update node
    (set__feature (_processTags (default [] (comment n ≫= tags)))) in
  match type n with
  | Some ty =>
      if bool_decide (Ty.type ty = "reference")
         && bool_decide (Ty.name ty ∈ Some <$> chromeEventRefTypes)
      then
        match first (Ty.typeArguments ty) with
        | None => throw (ReferenceWithoutArgument (Ty.name ty))
        | Some firstArgument =>
            match parameters ty firstArgument with
            | inl e => throw e
            | inr parameters =>
                update node
                  (set__event {| addListenerParameters := parameters |})
            end
        end
      else ret tt
  | None => ret tt
  end.

Definition visit (node : loc) (parents : list loc) : M unit :=
  let! n := deref node in
  let! ps := mapM deref parents in
  let fqdn := fqdn ps n in
  if bool_decide (kindString n = Some "Namespace") then
    let! hasNonNamespaceChild :=
      someM (λ x, let! c := deref x in
                  ret (bool_decide (kindString c ≠ Some "Namespace")))
            (default [] (children n)) in
    if negb hasNonNamespaceChild then ret tt
    else
      let! _ := (λ s, Ok tt {| heap := heap s;
                               namespaces := set_property fqdn node (namespaces s) |}) in
      annotate node fqdn
  else annotate node fqdn.

(** [walk(node, parents)]. The recursion follows references, so it is
    bounded by [fuel]; a bound above the depth of the tree is enough. *)
Fixpoint walk (fuel : nat) (node : loc) (parents : list loc) : M unit :=
  match fuel with
  | O => λ _, OutOfFuel
  | S fuel' =>
      let! _ := visit node parents in
      let! n := deref node in
      match children n with
      | None => ret tt
      | Some cs =>
          let! children :=
            filterM (λ c, let! x := deref c in ret (filter x)) cs in
          let! _ := forM_ (λ c, walk fuel' c (parents ++ [node])) children in
          update node (set_children (Some children))
      end
  end.

(** [new Transform(project).run()] on a store: the walk from the project
    with no parents, then [this.namespaces]. *)
Definition run (fuel : nat) (project : loc) (h : gmap loc node)
  : result (gmap string loc) :=
  (let! _ := walk fuel project [] in λ s, Ok (namespaces s) s)
    {| heap := h; namespaces := ∅ |}.

End Transform.

(** ** JSON documents

    The input of the transformer is the object that typedoc's
    [projectToObject] builds: a tree, no object of which is reached twice. *)

Inductive tree : Type :=
  | Tree (fields : DeclarationReflection tree).

Definition fields (t : tree) : DeclarationReflection tree :=
  let 'Tree n := t in n.

(** The sub-trees below a node, none when it has no [children]. *)
Definition subtrees (t : tree) : list tree :=
  default [] (children (fields t)).

(** The number of nodes on the longest path from the root down. *)
Fixpoint height (t : tree) : nat :=
  match t with
  | Tree n =>
      S (match children n with
         | None => 0
         | Some cs =>
             (fix go (cs : list tree) : nat :=
                match cs with
                | [] => 0
                | c :: cs' => Nat.max (height c) (go cs')
                end) cs
         end)
  end.

(** The sub-tree at a position, when the position is in the tree. *)
Fixpoint subtree (t : tree) (q : loc) : option tree :=
  match q with
  | [] => Some t
  | i :: q' =>
      match subtrees t !! i with
      | Some c => subtree c q'
      | None => None
      end
  end.

(** The references to the children of the object at [q]. *)
Definition child_locs (q : loc) (cs : list tree) : list loc :=
  imap (λ i _, q ++ [i]) cs.

(** The object that stands for the root of [t] when it is stored at [q]. *)
Definition object_at (q : loc) (t : tree) : node :=
  set_children (child_locs q <$> children (fields t)) (fields t).

(** The store holding [t] at [q] and its descendants below. *)
Fixpoint load_at (q : loc) (t : tree) : gmap loc node :=
  match t with
  | Tree n =>
      <[q := object_at q (Tree n)]>
        (match children n with
         | None => ∅
         | Some cs =>
             (fix go (i : nat) (cs : list tree) : gmap loc node :=
                match cs with
                | [] => ∅
                | c :: cs' => load_at (q ++ [i]) c ∪ go (S i) cs'
                end) 0 cs
         end)
  end.

Definition load (t : tree) : gmap loc node := load_at [] t.

(** The transformer on a JSON document: the mapping it returns and the
    store it leaves, or the error it throws. *)
Definition transform (t : tree) : result (gmap string loc) :=
  Transform.run (height t) [] (load t).

(** Documents the properties below are tried on. *)
Module Examples.

(** A declaration without flags, comment or type. *)
Definition decl (name kind : string) (children : option (list tree)) : tree :=
  Tree {| name := name; kindString := Some kind; children := children;
          flags := None; comment := None; type := None;
          _name := None; _feature := None; _event := None |}.

(** Two nested namespaces, a pruned function and a pruned namespace. *)
Definition project1 : tree :=
  decl "proj" "Project"
    (Some [ decl "chrome" "Namespace"
              (Some [ decl "tabs" "Namespace"
                        (Some [ decl "Tab" "Interface" None;
                                decl "_hidden" "Function" None ]);
                      decl "_internal" "Namespace"
                        (Some [ decl "x" "Function" None ]) ]) ]).

(** A property of type [ty]. *)
Definition member (name : string) (ty : SomeType) : tree :=
  Tree {| name := name; kindString := Some "Property"; children := None;
          flags := None; comment := None; type := Some ty;
          _name := None; _feature := None; _event := None |}.

Definition intrinsic (name : string) : SomeType :=
  Build_SomeType "intrinsic" (Some name) None None.

Definition reference (name : string) (args : list SomeType) : SomeType :=
  Build_SomeType "reference" (Some name) (Some args) None.

(** A member whose type is [CustomChromeEvent<string>]. *)
Definition project3 : tree :=
  decl "proj" "Project"
    (Some [ member "onFoo" (reference "CustomChromeEvent" [intrinsic "string"]) ]).

(** A reflection type with one call signature, [(tab: string) => ...]. *)
Definition callback : SomeType :=
  Build_SomeType "reflection" None None
    (Some (Build_Declaration
       (Some [ Build_Signature
                 (Some [ Build_ParameterReflection 7 "tab" 32768
                           {| isPrivate := None |}
                           (Some (intrinsic "string")) ]) ]))).

(** A namespace without children that carries a type. *)
Definition typed_namespace (name : string) (ty : SomeType) : tree :=
  Tree {| name := name; kindString := Some "Namespace"; children := None;
          flags := None; comment := None; type := Some ty;
          _name := None; _feature := None; _event := None |}.

Definition project6 : tree :=
  decl "proj" "Project"
    (Some [ member "_onFoo" (reference "Event" [callback]);
            typed_namespace "ns" (reference "Event" [callback]);
            member "onFoo" (reference "Event" [callback]) ]).

Definition project7 : tree :=
  decl "proj" "Project"
    (Some [ member "onBar" (reference "Event" [intrinsic "never"]) ]).

Definition project8 : tree :=
  decl "proj" "Project"
    (Some [ member "_onFoo" (reference "CustomChromeEvent" [callback]);
            typed_namespace "ns" (reference "CustomChromeEvent" [callback]);
            member "onFoo" (reference "CustomChromeEvent" [callback]) ]).

(** A namespace whose only child that is not a namespace is pruned. *)
Definition project10 : tree :=
  decl "proj" "Project"
    (Some [ decl "chrome" "Namespace"
              (Some [ decl "_x" "Function" None;
                      decl "inner" "Namespace" None ]) ]).

(** A member whose type is [Event] without type arguments. *)
Definition project11 : tree :=
  decl "proj" "Project"
    (Some [ member "onFoo" (reference "Event" []) ]).

(** A function with a comment that has the tags [tags]. *)
Definition commented (name : string) (tags : list CommentTag) : tree :=
  Tree {| name := name; kindString := Some "Function"; children := None;
          flags := None; comment := Some {| tags := Some tags |};
          type := None;
          _name := None; _feature := None; _event := None |}.

(** A function with two [chrome-channel] tags and one without any. *)
Definition project4 : tree :=
  decl "proj" "Project"
    (Some [ commented "query"
              [ {| tag := "chrome-channel"; text := " beta" |};
                {| tag := "since"; text := "Chrome 90" |};
                {| tag := "chrome-channel"; text := "dev " |} ];
            commented "get" [ {| tag := "since"; text := "Chrome 90" |} ] ]).

(** Two namespaces with the same fully-qualified name, [a]: the second is
    a child of the first and has the empty name. *)
Definition project17 : tree :=
  decl "proj" "Project"
    (Some [ decl "a" "Namespace"
              (Some [ decl "f" "Function" None;
                      decl "" "Namespace"
                        (Some [ decl "g" "Function" None ]) ]) ]).

(** The state in which the transformer leaves [project1]. *)
Definition state1 : State :=
  Eval vm_compute in
    match transform project1 with
    | Ok _ σ => σ
    | _ => {| heap := ∅; namespaces := ∅ |}
    end.

Definition state3 : State :=
  Eval vm_compute in
    match transform project3 with
    | Ok _ σ => σ
    | _ => {| heap := ∅; namespaces := ∅ |}
    end.

Definition state6 : State :=
  Eval vm_compute in
    match transform project6 with
    | Ok _ σ => σ
    | _ => {| heap := ∅; namespaces := ∅ |}
    end.

Definition state7 : State :=
  Eval vm_compute in
    match transform project7 with
    | Ok _ σ => σ
    | _ => {| heap := ∅; namespaces := ∅ |}
    end.

Definition state8 : State :=
  Eval vm_compute in
    match transform project8 with
    | Ok _ σ => σ
    | _ => {| heap := ∅; namespaces := ∅ |}
    end.

Definition state4 : State :=
  Eval vm_compute in
    match transform project4 with
    | Ok _ σ => σ
    | _ => {| heap := ∅; namespaces := ∅ |}
    end.

Definition state17 : State :=
  Eval vm_compute in
    match transform project17 with
    | Ok _ σ => σ
    | _ => {| heap := ∅; namespaces := ∅ |}
    end.

Definition state10 : State :=
  Eval vm_compute in
    match transform project10 with
    | Ok _ σ => σ
    | _ => {| heap := ∅; namespaces := ∅ |}
    end.

End Examples.

(** ** What one call of [visit] does to the object it is given *)

Section Summary.
Context {C : Type}.
Implicit Type n : DeclarationReflection C.

(** The kind and the name are all that [visit] reads of a parent. *)
Definition key n : option string * string := (kindString n, name n).

(** [Transform.fqdn] from the keys of the parents. *)
Definition fqdn_keys (ks : list (option string * string)) (nm : string) : string :=
  JsString.join "."
    (base.filter (λ x, x ≠ "")
       ((snd <$> base.filter (λ k, fst k ≠ Some "Project") ks) ++ [nm])).

(** The outcome of the event-reference step for a node of type [ty]: the
    error thrown, or the value written to [_event], if any. *)
Definition event_of (ty : option SomeType) : Error + option ExtendedEvent :=
  match ty with
  | Some ty =>
      if bool_decide (Ty.type ty = "reference")
         && bool_decide (Ty.name ty ∈ Some <$> Transform.chromeEventRefTypes)
      then
        match Transform.first (Ty.typeArguments ty) with
        | None => inl (ReferenceWithoutArgument (Ty.name ty))
        | Some firstArgument =>
            match Transform.parameters ty firstArgument with
            | inl e => inl e
            | inr ps => inr (Some {| addListenerParameters := ps |})
            end
        end
      else inr None
  | None => inr None
  end.

(** The properties [visit] has written when it reaches its end. *)
Definition annotated (fq : string) n : Error + DeclarationReflection C :=
  match event_of (type n) with
  | inl e => inl e
  | inr ev =>
      let n' :=
        set__feature
          (Transform._processTags (default [] (comment n ≫= tags)))
          (set__name fq n) in
      inr (match ev with Some e => set__event e n' | None => n' end)
  end.

(** A namespace: [node.kindString === 'Namespace']. *)
Definition is_namespace n : bool :=
  bool_decide (kindString n = Some "Namespace").

End Summary.

(** ** The vocabulary of the properties

    The positions of a document, the nodes the walk reaches, the objects it
    leaves, and what a walk that returns has done to the store and to the
    mapping. *)

Section Vocabulary.
Implicit Types (t s c : tree) (p q r : loc) (h : gmap loc node)
  (m : gmap string loc) (ks : list (option string * string)).

(** [hasNonNamespaceChild] of [visit], on the children as the document has
    them. *)
Definition hasNonNamespaceChild (t : tree) : bool :=
  existsb (λ c, bool_decide (kindString (fields c) ≠ Some "Namespace"))
          (subtrees t).

(** The nodes at which [visit] returns before it writes anything:
    namespaces with no child of another kind. *)
Definition skipped (t : tree) : bool :=
  is_namespace (fields t) && negb (hasNonNamespaceChild t).

(** The nodes [visit] assigns into [this.namespaces]. *)
Definition registered (t : tree) : bool :=
  is_namespace (fields t) && hasNonNamespaceChild t.

(** The node at a position that the walk gets to: every node on the way
    down from the root, the root apart, passes [filter]. *)
Fixpoint reached (t : tree) (q : loc) : option tree :=
  match q with
  | [] => Some t
  | i :: q' =>
      match subtrees t !! i with
      | Some c => if Transform.filter (fields c) then reached c q' else None
      | None => None
      end
  end.

(** The nodes above a position, from the root down. *)
Fixpoint ancestors (t : tree) (q : loc) : list tree :=
  match q with
  | [] => []
  | i :: q' =>
      t :: match subtrees t !! i with
           | Some c => ancestors c q'
           | None => []
           end
  end.

(** The fully-qualified name of the node [s] at position [q] of [t]: the
    names of its ancestors that are not of kind Project, then its own, the
    empty ones dropped, joined with dots. *)
Definition fullName (t : tree) (q : loc) (s : tree) : string :=
  Transform.fqdn (fields <$> ancestors t q) (fields s).

(** The children with their indices, and those that pass [filter]. *)
Definition ichildren (t : tree) : list (nat * tree) :=
  imap pair (subtrees t).

Definition kept (t : tree) : list (nat * tree) :=
  base.filter (λ ic, Transform.filter (fields ic.2) = true) (ichildren t).

(** The object of a node the walk has left: [visit]'s properties unless it
    returned early, and the children that pass [filter]. *)
Definition pruned (q : loc) (s : tree) (n : node) : node :=
  match children (fields s) with
  | None => n
  | Some _ => set_children (Some ((λ ic, q ++ [ic.1]) <$> kept s)) n
  end.

Definition final_object (fq : string) (q : loc) (s : tree) (o : option node) : Prop :=
  if skipped s then o = Some (pruned q s (object_at q s))
  else ∃ n1, annotated fq (object_at q s) = inr n1 ∧ o = Some (pruned q s n1).

(** The store holds the document [t] at [p]. *)
Definition stored (h : gmap loc node) (p : loc) (t : tree) : Prop :=
  ∀ r s, subtree t r = Some s → h !! (p ++ r) = Some (object_at (p ++ r) s).

(** The children of [t], stored below [p], as references with their
    objects. *)
Definition child_objects (p : loc) (ics : list (nat * tree)) : list (loc * node) :=
  (λ ic, (p ++ [ic.1], object_at (p ++ [ic.1]) ic.2)) <$> ics.

(** The store holds the children of [t] below [p]. *)
Definition children_stored h p t : Prop :=
  ∀ i c, subtrees t !! i = Some c → h !! (p ++ [i]) = Some (object_at (p ++ [i]) c).

(** The name [visit] computes at position [r] below [t], when the nodes
    above [t] have the keys [ks]. *)
Definition name_below ks t r s : string :=
  fqdn_keys (ks ++ (key ∘ fields <$> ancestors t r)) (name (fields s)).

(** [visit] throws [e] at the node [s] at position [r] below [t]. *)
Definition throws_at t r s (e : Error) : Prop :=
  reached t r = Some s ∧ skipped s = false ∧ event_of (type (fields s)) = inl e.

(** What a walk that returns has done, from the store [h] and the mapping
    [m] it started with. *)
Record walked ks t p h m (h' : gmap loc node) (m' : gmap string loc) : Prop := {
  wk_final : ∀ r s, reached t r = Some s →
    final_object (name_below ks t r s) (p ++ r) s (h' !! (p ++ r));
  wk_frame : ∀ q, (∀ r, q = p ++ r → reached t r = None) → h' !! q = h !! q;
  wk_sound : ∀ k l, m' !! k = Some l →
    m !! k = Some l ∨
    ∃ r s, l = p ++ r ∧ reached t r = Some s ∧ registered s = true
           ∧ k = name_below ks t r s;
  wk_mono : ∀ k, is_Some (m !! k) → is_Some (m' !! k);
  wk_complete : ∀ r s, reached t r = Some s → registered s = true →
    name_below ks t r s ≠ "__proto__" → is_Some (m' !! name_below ks t r s);
}.

Definition walk_outcome ks t p h m (res : result unit) : Prop :=
  match res with
  | Ok _ s' => walked ks t p h m (heap s') (namespaces s')
  | Throw e => ∃ r s, throws_at t r s e
  | Dangling | OutOfFuel => False
  end.

Definition parents_in h (parents : list loc) ks : Prop :=
  Forall2 (λ l k, ∃ n : node, h !! l = Some n ∧ key n = k) parents ks.

Definition walk_spec (fuel : nat) : Prop :=
  ∀ t p parents ks h m,
    (height t ≤ fuel)%nat → stored h p t → parents_in h parents ks →
    (∀ l r, l ∈ parents → l ≠ p ++ r) →
    walk_outcome ks t p h m
      (Transform.walk fuel p parents {| heap := h; namespaces := m |}).

(** The same for the loop over the children [ics] of the object at [p]. *)
Record looped ks (ics : list (nat * tree)) p h m
    (h' : gmap loc node) (m' : gmap string loc) : Prop := {
  lp_final : ∀ i c r s, (i, c) ∈ ics → reached c r = Some s →
    final_object (name_below ks c r s) (p ++ i :: r) s (h' !! (p ++ i :: r));
  lp_frame : ∀ q,
    (∀ i c r, (i, c) ∈ ics → q = p ++ i :: r → reached c r = None) →
    h' !! q = h !! q;
  lp_sound : ∀ k l, m' !! k = Some l →
    m !! k = Some l ∨
    ∃ i c r s, (i, c) ∈ ics ∧ l = p ++ i :: r ∧ reached c r = Some s
               ∧ registered s = true ∧ k = name_below ks c r s;
  lp_mono : ∀ k, is_Some (m !! k) → is_Some (m' !! k);
  lp_complete : ∀ i c r s, (i, c) ∈ ics → reached c r = Some s →
    registered s = true → name_below ks c r s ≠ "__proto__" →
    is_Some (m' !! name_below ks c r s);
}.

Definition loop_outcome ks (ics : list (nat * tree)) p h m (res : result unit) : Prop :=
  match res with
  | Ok _ s' => looped ks ics p h m (heap s') (namespaces s')
  | Throw e => ∃ i c r s, (i, c) ∈ ics ∧ throws_at c r s e
  | Dangling | OutOfFuel => False
  end.

(** The part of [walk] after [visit], from a store in which [visit] has
    left the object [n1] at [p]. *)
Definition after_outcome ks t p h m (n1 : node) (res : result unit) : Prop :=
  match res with
  | Ok _ s' =>
      ∃ h2, looped (ks ++ [key (fields t)]) (kept t) p (<[p := n1]> h) m
              h2 (namespaces s')
            ∧ heap s' = <[p := pruned p t n1]> h2
  | Throw e => ∃ i c r s, (i, c) ∈ kept t ∧ throws_at c r s e
  | Dangling | OutOfFuel => False
  end.

(** The stores of the children [cs], the first of which has index [i]. *)
Definition load_children (p : loc) : nat → list tree → gmap loc node :=
  fix go (i : nat) (cs : list tree) : gmap loc node :=
    match cs with
    | [] => ∅
    | c :: cs' => load_at (p ++ [i]) c ∪ go (S i) cs'
    end.

(** What a store built by [load_at] holds: the objects of the positions of
    the document, and nothing elsewhere. *)
Definition loaded (t : tree) : Prop :=
  ∀ p, (∀ r, load_at p t !! (p ++ r) = object_at (p ++ r) <$> subtree t r)
       ∧ (∀ q, is_Some (load_at p t !! q) → ∃ r, q = p ++ r).

(** The objects of the tree that hangs from [root] in a store: those that
    the [children] arrays lead to. *)
Inductive in_tree (h : gmap loc node) (root : loc) : loc → Prop :=
  | in_tree_root : in_tree h root root
  | in_tree_child q n cs (l : loc) :
      in_tree h root q → h !! q = Some n → children n = Some cs → l ∈ cs →
      in_tree h root l.

Definition is_channel (t : CommentTag) : Prop := tag t = "chrome-channel".
Definition is_permission (t : CommentTag) : Prop := tag t = "chrome-permission".

(** The references at which [visit] throws: the type is a reference to one
    of the three event types, and it has no first type argument, or it is
    not [CustomChromeEvent] and its first type argument is an intrinsic
    type with a name other than [never]. *)
Definition raises (ty : SomeType) : Prop :=
  Ty.type ty = "reference"
  ∧ Ty.name ty ∈ Some <$> Transform.chromeEventRefTypes
  ∧ (Transform.first (Ty.typeArguments ty) = None
     ∨ ∃ a, Transform.first (Ty.typeArguments ty) = Some a
            ∧ Ty.name ty ≠ Some "CustomChromeEvent"
            ∧ Ty.type a = "intrinsic"
            ∧ Ty.name a ≠ Some "never").

(** The tag names that have a case in the [switch] of [_processTags]. *)
Definition recognizedTags : list string :=
  [ "chrome-platform-apps"; "since"; "chrome-channel"; "chrome-permission";
    "chrome-manifest"; "deprecated"; "chrome-deprecated-since";
    "chrome-min-manifest"; "chrome-max-manifest";
    "chrome-disallow-service-workers" ].

(** The tags of one name. *)
Definition tagged (nm : string) (tags : list CommentTag) : list CommentTag :=
  base.filter (λ x, tag x = nm) tags.

(** The calls of [visit] a walk makes when nothing throws, in their order:
    the node itself, then, child after child, the calls of the walks of
    the children that pass [filter]. Each call is given with the position
    of the node, the node, and the name [visit] computes for it, [ks] being
    the keys of the nodes above. *)
Fixpoint visits (ks : list (option string * string)) (p : loc) (t : tree)
  : list (loc * tree * string) :=
  match t with
  | Tree n =>
      (p, Tree n, fqdn_keys ks (name n))
      :: match children n with
         | None => []
         | Some cs =>
             (fix go (i : nat) (cs : list tree) : list (loc * tree * string) :=
                match cs with
                | [] => []
                | c :: cs' =>
                    (if Transform.filter (fields c)
                     then visits (ks ++ [key n]) (p ++ [i]) c
                     else [])
                    ++ go (S i) cs'
                end) 0 cs
         end
  end.

(** The error [visit] throws at a node, if it throws. *)
Definition visit_error (s : tree) : option Error :=
  if skipped s then None
  else match event_of (type (fields s)) with
       | inl e => Some e
       | inr _ => None
       end.

(** The first error in a sequence of calls of [visit]. *)
Fixpoint first_error (vs : list (loc * tree * string)) : option Error :=
  match vs with
  | [] => None
  | v :: vs' =>
      match visit_error v.1.2 with
      | Some e => Some e
      | None => first_error vs'
      end
  end.

(** The assignment to [this.namespaces] that a call of [visit] makes. *)
Definition assign (m : gmap string loc) (v : loc * tree * string)
  : gmap string loc :=
  if registered v.1.2 then set_property v.2 v.1.1 m else m.

(** The outcome of a walk that makes the calls [vs] from the mapping [m]:
    it throws the first error, or returns with every assignment made in
    order. *)
Definition exact_outcome (vs : list (loc * tree * string)) m
    (res : result unit) : Prop :=
  match res with
  | Ok _ s' => first_error vs = None ∧ namespaces s' = foldl assign m vs
  | Throw e => first_error vs = Some e
  | Dangling | OutOfFuel => False
  end.

Definition exact_spec (fuel : nat) : Prop :=
  ∀ t p parents ks h m,
    (height t ≤ fuel)%nat → stored h p t → parents_in h parents ks →
    (∀ l r, l ∈ parents → l ≠ p ++ r) →
    exact_outcome (visits ks p t) m
      (Transform.walk fuel p parents {| heap := h; namespaces := m |}).

(** The calls of [visit] in the walks of the children [ics] of a node at
    [p]. *)
Definition visits_of ks p (ics : list (nat * tree)) : list (loc * tree * string) :=
  mjoin ((λ ic, visits ks (p ++ [ic.1]) ic.2) <$> ics).

End Vocabulary.

(** ** The name [visit] computes, from the keys of the parents *)

Lemma fqdn_keys_eq {C D} (ps : list (DeclarationReflection C))
    (n : DeclarationReflection D) :
  Transform.fqdn ps n = fqdn_keys (key <$> ps) (name n).
Proof.
  unfold Transform.fqdn, fqdn_keys. do 3 f_equal.
  induction ps as [|a ps IH]; [done|].
  rewrite fmap_cons, !filter_cons. change ((key a).1) with (kindString a).
  destruct (decide (kindString a ≠ Some "Project")); [|done].
  rewrite !fmap_cons. by f_equal.
Qed.

(** ** Running the monad on a known store *)

Section Run.
Implicit Types (h : gmap loc node) (m : gmap string loc) (s : State).

Lemma deref_run s l n : heap s !! l = Some n → deref l s = Ok n s.
Proof. unfold deref. by intros ->. Qed.

Lemma update_run s l n f :
  heap s !! l = Some n →
  update l f s = Ok tt {| heap := <[l := f n]> (heap s); namespaces := namespaces s |}.
Proof. unfold update. by intros ->. Qed.

Lemma mapM_deref s ls ns :
  Forall2 (λ l n, heap s !! l = Some n) ls ns → mapM deref ls s = Ok ns s.
Proof.
  induction 1 as [|l n ls ns Hl _ IH]; [done|].
  simpl. unfold bind. by rewrite (deref_run _ _ _ Hl), IH.
Qed.

Lemma someM_deref s (g : node → bool) (lns : list (loc * node)) :
  Forall (λ ln, heap s !! ln.1 = Some ln.2) lns →
  someM (λ x, let! c := deref x in ret (g c)) (lns.*1) s
  = Ok (existsb g (lns.*2)) s.
Proof.
  induction 1 as [|[l n] lns Hl _ IH]; [done|].
  rewrite !fmap_cons. simpl in *. unfold bind, ret in *.
  rewrite (deref_run _ _ _ Hl). destruct (g n); [done|]. by rewrite IH.
Qed.

Lemma filterM_deref s (g : node → bool) (lns : list (loc * node)) :
  Forall (λ ln, heap s !! ln.1 = Some ln.2) lns →
  filterM (λ x, let! c := deref x in ret (g c)) (lns.*1) s
  = Ok ((base.filter (λ ln, g ln.2 = true) lns).*1) s.
Proof.
  induction 1 as [|[l n] lns Hl _ IH]; [done|].
  rewrite filter_cons, !fmap_cons. simpl in *. unfold bind, ret in *.
  rewrite (deref_run _ _ _ Hl), IH. destruct (g n).
  - by rewrite decide_True.
  - by rewrite decide_False.
Qed.

Lemma annotate_run s l n fq :
  heap s !! l = Some n →
  Transform.annotate l fq s =
  match annotated fq n with
  | inl e => Throw e
  | inr n' => Ok tt {| heap := <[l := n']> (heap s); namespaces := namespaces s |}
  end.
Proof.
  intros Hl. unfold Transform.annotate, annotated, event_of.
  unfold bind at 1. rewrite (update_run _ _ _ _ Hl).
  unfold bind at 1. unfold deref. simpl heap. rewrite lookup_insert_eq.
  unfold bind at 1. unfold update at 1. simpl heap. rewrite lookup_insert_eq.
  rewrite insert_insert_eq. simpl.
  destruct (type n) as [ty|]; [|done].
  destruct (_ && _); [|done].
  destruct (Transform.first _) as [a|]; [|done].
  destruct (Transform.parameters ty a) as [e|ps]; [done|].
  unfold update. simpl. rewrite lookup_insert_eq, insert_insert_eq. done.
Qed.

(** More fuel does not change the outcome of a walk that had enough. *)
Lemma bind_fuel {A B} (m : M A) (k k' : A → M B) s :
  (∀ a s', k a s' ≠ OutOfFuel → k' a s' = k a s') →
  bind m k s ≠ OutOfFuel → bind m k' s = bind m k s.
Proof.
  unfold bind. intros H Hne. destruct (m s); try done. by apply H.
Qed.

Lemma forM_fuel {A} (f g : A → M unit) (l : list A) s :
  (∀ a s', f a s' ≠ OutOfFuel → g a s' = f a s') →
  forM_ f l s ≠ OutOfFuel → forM_ g l s = forM_ f l s.
Proof.
  intros Hfg. revert s. induction l as [|a l IH]; intros s; [done|].
  simpl. unfold bind. intros Hne.
  assert (f a s ≠ OutOfFuel) as Ha by (intros E; by rewrite E in Hne).
  rewrite (Hfg a s Ha). destruct (f a s); try done. by apply IH.
Qed.

Lemma walk_fuel_S fuel :
  ∀ p parents s,
    Transform.walk fuel p parents s ≠ OutOfFuel →
    Transform.walk (S fuel) p parents s = Transform.walk fuel p parents s.
Proof.
  induction fuel as [|fuel IH]; intros p parents s Hne; [done|].
  change (Transform.walk (S (S fuel)) p parents) with
    (let! _ := Transform.visit p parents in
     let! n := deref p in
     match children n with
     | None => ret tt
     | Some cs =>
         let! children :=
           filterM (λ l, let! x := deref l in ret (Transform.filter x)) cs in
         let! _ := forM_ (λ l, Transform.walk (S fuel) l (parents ++ [p])) children in
         update p (set_children (Some children))
     end).
  change (Transform.walk (S fuel) p parents) with
    (let! _ := Transform.visit p parents in
     let! n := deref p in
     match children n with
     | None => ret tt
     | Some cs =>
         let! children :=
           filterM (λ l, let! x := deref l in ret (Transform.filter x)) cs in
         let! _ := forM_ (λ l, Transform.walk fuel l (parents ++ [p])) children in
         update p (set_children (Some children))
     end) in Hne |- *.
  revert Hne. apply bind_fuel. intros [] s1.
  apply bind_fuel. intros n s2.
  destruct (children n) as [cs|]; [|done].
  apply bind_fuel. intros kept' s3.
  unfold bind. intros Hne.
  rewrite (forM_fuel (λ l, Transform.walk fuel l (parents ++ [p]))
             (λ l, Transform.walk (S fuel) l (parents ++ [p]))).
  - done.
  - intros a s' Ha. by apply IH.
  - intros E. by rewrite E in Hne.
Qed.

Lemma walk_fuel fuel fuel' p parents s :
  (fuel ≤ fuel')%nat →
  Transform.walk fuel p parents s ≠ OutOfFuel →
  Transform.walk fuel' p parents s = Transform.walk fuel p parents s.
Proof.
  intros Hle Hne. induction Hle as [|fuel' _ IH]; [done|].
  rewrite walk_fuel_S; [done|]. by rewrite IH.
Qed.

End Run.

(** ** Facts about positions *)

Section Positions.
Implicit Types (t s c : tree) (p q r : loc).

Lemma subtrees_Tree n : subtrees (Tree n) = default [] (children n).
Proof. done. Qed.

Lemma height_child t i c : subtrees t !! i = Some c → height c < height t.
Proof.
  destruct t as [n]. rewrite subtrees_Tree. simpl.
  destruct (children n) as [cs|]; simpl; [|by rewrite lookup_nil].
  revert i. induction cs as [|c' cs IH]; intros i Hi; [by rewrite lookup_nil in Hi|].
  destruct i as [|i]; simpl in Hi.
  - injection Hi as ->. lia.
  - specialize (IH i Hi). lia.
Qed.

Lemma ichildren_lookup t i c :
  (i, c) ∈ ichildren t ↔ subtrees t !! i = Some c.
Proof.
  unfold ichildren. rewrite elem_of_lookup_imap. split.
  - intros (j & y & [= -> ->] & H). done.
  - intros H. by exists i, c.
Qed.

Lemma kept_lookup t i c :
  (i, c) ∈ kept t ↔ subtrees t !! i = Some c ∧ Transform.filter (fields c) = true.
Proof.
  unfold kept. rewrite list_elem_of_filter, ichildren_lookup. simpl. tauto.
Qed.

Lemma imap_pair_fst {A} (f : nat → nat) (l : list A) :
  NoDup (imap (λ i x, (f i, x)) l).*1 ↔ NoDup (f <$> seq 0 (length l)).
Proof.
  assert ((imap (λ i x, (f i, x)) l).*1 = f <$> seq 0 (length l)) as ->; [|done].
  revert f. induction l as [|x l IH]; intros f; [done|].
  rewrite imap_cons, fmap_cons. simpl. f_equal.
  rewrite <- fmap_S_seq, <- list_fmap_compose. apply (IH (f ∘ S)).
Qed.

Lemma ichildren_NoDup t : NoDup (ichildren t).*1.
Proof.
  unfold ichildren.
  apply (imap_pair_fst id). rewrite list_fmap_id. apply NoDup_seq.
Qed.

Lemma NoDup_filter_fst (P : nat * tree → Prop) `{∀ x, Decision (P x)}
    (l : list (nat * tree)) :
  NoDup l.*1 → NoDup (base.filter P l).*1.
Proof.
  induction l as [|x l IH]; [done|].
  rewrite fmap_cons, NoDup_cons. intros [Hx Hl].
  rewrite filter_cons. destruct (decide (P x)); [|by apply IH].
  rewrite fmap_cons, NoDup_cons. split; [|by apply IH].
  intros Hin. apply Hx.
  apply list_elem_of_fmap in Hin as (y & -> & Hy).
  apply list_elem_of_filter in Hy as [_ Hy].
  by apply list_elem_of_fmap_2.
Qed.

Lemma kept_NoDup t : NoDup (kept t).*1.
Proof. apply NoDup_filter_fst, ichildren_NoDup. Qed.

Lemma child_locs_eq p t :
  child_locs p (subtrees t) = (λ ic, p ++ [ic.1]) <$> ichildren t.
Proof. unfold child_locs, ichildren. by rewrite fmap_imap. Qed.

Lemma children_object_at p t :
  children (object_at p t) = child_locs p <$> children (fields t).
Proof. done. Qed.

Lemma children_object_at_default p t :
  default [] (children (object_at p t)) = child_locs p (subtrees t).
Proof.
  rewrite children_object_at. unfold subtrees.
  by destruct (children (fields t)).
Qed.

Lemma stored_child h p t i c :
  stored h p t → subtrees t !! i = Some c → stored h (p ++ [i]) c.
Proof.
  intros Hst Hi r s Hr.
  replace ((p ++ [i]) ++ r) with (p ++ i :: r) by (by rewrite <- app_assoc).
  apply (Hst (i :: r)). simpl. by rewrite Hi.
Qed.

Lemma stored_root h p t : stored h p t → h !! p = Some (object_at p t).
Proof. intros Hst. specialize (Hst [] t eq_refl). by rewrite app_nil_r in Hst. Qed.

End Positions.

(** ** [visit] and the child filter on a stored document *)

Section Stored.
Implicit Types (t s c : tree) (p q r : loc) (h : gmap loc node)
  (m : gmap string loc).

Lemma child_objects_fst p ics :
  (child_objects p ics).*1 = (λ ic, p ++ [ic.1]) <$> ics.
Proof.
  unfold child_objects. rewrite <- list_fmap_compose. by apply list_fmap_ext.
Qed.

Lemma child_objects_some p ics :
  existsb (λ c : node, bool_decide (kindString c ≠ Some "Namespace"))
          (child_objects p ics).*2
  = existsb (λ c, bool_decide (kindString (fields c) ≠ Some "Namespace")) ics.*2.
Proof.
  induction ics as [|[i c] ics IH]; [done|].
  unfold child_objects in *. rewrite !fmap_cons. simpl. by rewrite IH.
Qed.

Lemma child_objects_filter p ics :
  (base.filter (λ ln : loc * node, Transform.filter ln.2 = true)
     (child_objects p ics)).*1
  = (λ ic, p ++ [ic.1]) <$>
      base.filter (λ ic, Transform.filter (fields ic.2) = true) ics.
Proof.
  induction ics as [|[i c] ics IH]; [done|].
  unfold child_objects in *. rewrite fmap_cons, !filter_cons. simpl.
  change (Transform.filter (object_at (p ++ [i]) c))
    with (Transform.filter (fields c)).
  destruct (decide (Transform.filter (fields c) = true)).
  - rewrite !fmap_cons. simpl. by rewrite IH.
  - done.
Qed.

Lemma ichildren_snd t : (ichildren t).*2 = subtrees t.
Proof.
  unfold ichildren. generalize (subtrees t). intros l.
  rewrite fmap_imap.
  rewrite (imap_ext _ (const id)); [|done].
  by rewrite imap_const, list_fmap_id.
Qed.

Lemma stored_children h p t : stored h p t → children_stored h p t.
Proof. intros Hst i c Hi. by apply stored_root, (stored_child h p t). Qed.

Lemma child_objects_stored h p t :
  children_stored h p t →
  Forall (λ ln, h !! ln.1 = Some ln.2) (child_objects p (ichildren t)).
Proof.
  intros Hst. unfold child_objects. rewrite Forall_fmap, Forall_forall.
  intros [i c] Hic. simpl. apply ichildren_lookup in Hic. by apply Hst.
Qed.

Lemma parents_objects h (parents : list loc) ks :
  Forall2 (λ l k, ∃ n : node, h !! l = Some n ∧ key n = k) parents ks →
  ∃ ps, Forall2 (λ l n, h !! l = Some n) parents ps ∧ key <$> ps = ks.
Proof.
  induction 1 as [|l k ls ks (n & Hn & Hk) _ (ps & Hps & Hks)].
  - by exists [].
  - exists (n :: ps). split; [by constructor|]. rewrite fmap_cons. congruence.
Qed.

Lemma visit_stored h m p t parents ks :
  stored h p t →
  Forall2 (λ l k, ∃ n : node, h !! l = Some n ∧ key n = k) parents ks →
  Transform.visit p parents {| heap := h; namespaces := m |} =
  let fq := fqdn_keys ks (name (fields t)) in
  if skipped t then Ok tt {| heap := h; namespaces := m |}
  else
    match annotated fq (object_at p t) with
    | inl e => Throw e
    | inr n1 =>
        Ok tt {| heap := <[p := n1]> h;
                 namespaces := if registered t then set_property fq p m else m |}
    end.
Proof.
  intros Hst Hps. apply parents_objects in Hps as (ps & Hps & <-).
  pose proof (stored_root _ _ _ Hst) as Hp.
  pose proof (child_objects_stored _ _ _ (stored_children _ _ _ Hst)) as Hcs.
  set (s0 := {| heap := h; namespaces := m |}).
  change h with (heap s0) in Hp, Hps, Hcs.
  unfold Transform.visit.
  unfold bind at 1. rewrite (deref_run _ _ _ Hp).
  unfold bind at 1. rewrite (mapM_deref _ _ _ Hps).
  rewrite fqdn_keys_eq. change (name (object_at p t)) with (name (fields t)).
  unfold skipped, registered, is_namespace.
  change (kindString (object_at p t)) with (kindString (fields t)).
  destruct (bool_decide (kindString (fields t) = Some "Namespace")); simpl.
  - change (default [] (child_locs p <$> children (fields t)))
      with (default [] (children (object_at p t))).
    rewrite children_object_at_default, child_locs_eq, <- child_objects_fst.
    unfold bind at 1.
    rewrite (someM_deref _ _ _ Hcs).
    rewrite child_objects_some, ichildren_snd.
    fold (hasNonNamespaceChild t).
    destruct (hasNonNamespaceChild t); simpl; [|done].
    unfold bind. simpl. by rewrite (annotate_run _ p (object_at p t)).
  - by rewrite (annotate_run _ _ _ _ Hp).
Qed.

Lemma filter_stored h m p t :
  children_stored h p t →
  filterM (λ l, let! x := deref l in ret (Transform.filter x))
          (child_locs p (subtrees t)) {| heap := h; namespaces := m |}
  = Ok ((λ ic, p ++ [ic.1]) <$> kept t) {| heap := h; namespaces := m |}.
Proof.
  intros Hst. rewrite child_locs_eq, <- child_objects_fst.
  pose proof (child_objects_stored _ _ _ Hst) as Hcs.
  set (s0 := {| heap := h; namespaces := m |}).
  change h with (heap s0) in Hcs.
  rewrite (filterM_deref _ _ _ Hcs).
  by rewrite child_objects_filter.
Qed.

End Stored.

(** ** The walk on a stored document *)

Section Walk.
Implicit Types (t s c : tree) (p q r : loc) (h : gmap loc node)
  (m : gmap string loc) (ks : list (option string * string)).

Lemma app_cons_eq p i r : (p ++ [i]) ++ r = p ++ i :: r.
Proof. by rewrite <- app_assoc. Qed.

Lemma app_cons_inj p i j r r' : p ++ i :: r = p ++ j :: r' → i = j ∧ r = r'.
Proof. intros H. apply app_inv_head in H. by injection H. Qed.

Lemma app_cons_ne p i r : p ≠ p ++ i :: r.
Proof.
  intros H. apply (f_equal length) in H. rewrite length_app in H.
  simpl in H. lia.
Qed.

Lemma parents_in_frame h h' parents ks :
  parents_in h parents ks →
  (∀ l, l ∈ parents → h' !! l = h !! l) →
  parents_in h' parents ks.
Proof.
  unfold parents_in. intros H Hf.
  induction H as [|l k ls ks' (n & Hn & Hk) _ IH]; [constructor|].
  constructor.
  - exists n. split; [|done]. rewrite Hf; [done|]. apply elem_of_cons; by left.
  - apply IH. intros l' Hl'. apply Hf. apply elem_of_cons; by right.
Qed.

Lemma loop_walk fuel ks p parents :
  walk_spec fuel →
  ∀ (ics : list (nat * tree)) h m,
    NoDup ics.*1 →
    (∀ i c, (i, c) ∈ ics → (height c ≤ fuel)%nat ∧ stored h (p ++ [i]) c) →
    parents_in h parents ks →
    (∀ l i r, l ∈ parents → l ≠ p ++ i :: r) →
    loop_outcome ks ics p h m
      (forM_ (λ l, Transform.walk fuel l parents)
             ((λ ic, p ++ [ic.1]) <$> ics)
             {| heap := h; namespaces := m |}).
Proof.
  intros Hspec ics.
  induction ics as [|[i c] ics IH]; intros h m Hnd Hics Hps Hout.
  - simpl. split; try done.
    + intros i c r s Hin. by apply elem_of_nil in Hin.
    + intros k l Hk. by left.
    + intros i c r s Hin. by apply elem_of_nil in Hin.
  - rewrite fmap_cons in Hnd. apply NoDup_cons in Hnd as [Hi Hnd].
    rewrite fmap_cons. simpl. unfold bind.
    destruct (Hics i c) as [Hhc Hstc]; [apply elem_of_cons; by left|].
    pose proof (Hspec c (p ++ [i]) parents ks h m Hhc Hstc Hps) as Hw.
    assert (∀ l r, l ∈ parents → l ≠ (p ++ [i]) ++ r) as Hout'.
    { intros l r Hl. rewrite app_cons_eq. by apply Hout. }
    specialize (Hw Hout').
    destruct (Transform.walk fuel (p ++ [i]) parents _) as [[] [h1 m1]|e| |];
      simpl in Hw; try done.
    + (* the first child returned; the rest runs from its store *)
      destruct Hw as [Wfin Wfr Wsnd Wmono Wcomp].
      assert (∀ j c' r, (j, c') ∈ ics → h1 !! (p ++ j :: r) = h !! (p ++ j :: r))
        as Hrest.
      { intros j c' r Hj. apply Wfr. intros r' Heq.
        rewrite app_cons_eq in Heq. apply app_cons_inj in Heq as [-> _].
        exfalso. apply Hi. by apply (list_elem_of_fmap_2' fst _ (i, c')). }
      assert (∀ l, l ∈ parents → h1 !! l = h !! l) as Hpar.
      { intros l Hl. apply Wfr. intros r' Heq. by apply Hout' in Heq. }
      assert (∀ j c', (j, c') ∈ ics →
                (height c' ≤ fuel)%nat ∧ stored h1 (p ++ [j]) c') as Hics1.
      { intros j c' Hj.
        destruct (Hics j c') as [Hh Hs]; [apply elem_of_cons; by right|].
        split; [done|]. intros r s Hr.
        rewrite app_cons_eq, (Hrest j c' r Hj), <- app_cons_eq. by apply Hs. }
      specialize (IH h1 m1 Hnd Hics1 (parents_in_frame h h1 _ _ Hps Hpar) Hout).
      destruct (forM_ _ _ _) as [[] [h2 m2]|e| |]; simpl in IH |- *.
      * destruct IH as [Lfin Lfr Lsnd Lmono Lcomp].
        assert (∀ r, h2 !! (p ++ i :: r) = h1 !! (p ++ i :: r)) as Hmine.
        { intros r. apply Lfr. intros j c' r' Hj Heq.
          apply app_cons_inj in Heq as [<- _].
          exfalso. apply Hi. by apply (list_elem_of_fmap_2' fst _ (i, c')). }
        split.
        -- intros i0 c0 r s Hin Hr. apply elem_of_cons in Hin as [[= -> ->]|Hin].
           ++ rewrite Hmine, <- app_cons_eq. by apply Wfin.
           ++ by apply (Lfin i0 c0).
        -- intros q Hq. rewrite Lfr.
           ++ apply Wfr. intros r Heq. apply (Hq i c r).
              ** apply elem_of_cons; by left.
              ** by rewrite <- app_cons_eq.
           ++ intros j c' r Hj. apply Hq. apply elem_of_cons; by right.
        -- intros k l Hk. apply Lsnd in Hk as [Hk|(j & c' & r & s & Hj & H)].
           ++ apply Wsnd in Hk as [Hk|(r & s & -> & H)]; [by left|].
              right. exists i, c, r, s. rewrite app_cons_eq.
              split; [apply elem_of_cons; by left|done].
           ++ right. exists j, c', r, s. split; [apply elem_of_cons; by right|done].
        -- intros k Hk. by apply Lmono, Wmono.
        -- intros i0 c0 r s Hin Hr Hreg Hne.
           apply elem_of_cons in Hin as [[= -> ->]|Hin].
           ++ by apply Lmono, Wcomp.
           ++ by apply (Lcomp i0 c0).
      * destruct IH as (j & c' & r & s & Hj & H).
        exists j, c', r, s. split; [apply elem_of_cons; by right|done].
      * done.
      * done.
    + destruct Hw as (r & s & H). exists i, c, r, s.
      split; [apply elem_of_cons; by left|done].
Qed.

Lemma height_pos t : (1 ≤ height t)%nat.
Proof. destruct t. simpl. lia. Qed.

Lemma reached_kept t i c r :
  (i, c) ∈ kept t → reached t (i :: r) = reached c r.
Proof. intros [Hi Hf]%kept_lookup. simpl. by rewrite Hi, Hf. Qed.

Lemma reached_cons t i r s :
  reached t (i :: r) = Some s → ∃ c, (i, c) ∈ kept t ∧ reached c r = Some s.
Proof.
  simpl. destruct (subtrees t !! i) as [c|] eqn:Hi; [|done].
  destruct (Transform.filter (fields c)) eqn:Hf; [|done].
  intros Hr. exists c. split; [|done]. by apply kept_lookup.
Qed.

Lemma name_below_nil ks t s :
  name_below ks t [] s = fqdn_keys ks (name (fields s)).
Proof. unfold name_below. simpl. by rewrite app_nil_r. Qed.

Lemma name_below_cons ks t i c r s :
  subtrees t !! i = Some c →
  name_below ks t (i :: r) s = name_below (ks ++ [key (fields t)]) c r s.
Proof.
  intros Hi. unfold name_below. simpl. rewrite Hi.
  by rewrite <- app_assoc.
Qed.

Lemma annotated_inr {C} fq (n n1 : DeclarationReflection C) :
  annotated fq n = inr n1 →
  children n1 = children n ∧ key n1 = key n ∧
  _name n1 = Some fq ∧
  _feature n1 = Some (Transform._processTags (default [] (comment n ≫= tags))).
Proof.
  unfold annotated. destruct (event_of (type n)) as [e|[ev|]]; [done| |];
    intros [= <-]; done.
Qed.

Lemma annotated_inl {C} fq (n : DeclarationReflection C) e :
  annotated fq n = inl e ↔ event_of (type n) = inl e.
Proof.
  unfold annotated. destruct (event_of (type n)) as [e'|ev]; [|done].
  split; congruence.
Qed.

Lemma set_property_lookup fq l m k :
  set_property fq l m !! k =
  if bool_decide (fq ≠ "__proto__" ∧ k = fq) then Some l else m !! k.
Proof.
  unfold set_property. case_bool_decide as H1; case_bool_decide as H2;
    try done.
  - destruct H2 as [H2 _]. done.
  - destruct H2 as [_ ->]. by rewrite lookup_insert_eq.
  - rewrite lookup_insert_ne; [done|]. intros <-. by apply H2.
Qed.

Lemma looped_nil ks p h m : looped ks [] p h m h m.
Proof.
  split; try done.
  - intros i c r s Hin. by apply elem_of_nil in Hin.
  - intros k l Hk. by left.
  - intros i c r s Hin. by apply elem_of_nil in Hin.
Qed.

Lemma after_visit fuel ks p parents t h m n1 :
  walk_spec fuel →
  (height t ≤ S fuel)%nat → stored h p t → parents_in h parents ks →
  (∀ l r, l ∈ parents → l ≠ p ++ r) →
  children n1 = children (object_at p t) → key n1 = key (fields t) →
  after_outcome ks t p h m n1
    ((let! n := deref p in
      match children n with
      | None => ret tt
      | Some cs =>
          let! children :=
            filterM (λ l, let! x := deref l in ret (Transform.filter x)) cs in
          let! _ := forM_ (λ l, Transform.walk fuel l (parents ++ [p])) children in
          update p (set_children (Some children))
      end) {| heap := <[p := n1]> h; namespaces := m |}).
Proof.
  intros Hspec Hh Hst Hps Hout Hch Hkey.
  set (h1 := <[p := n1]> h).
  unfold bind at 1. unfold deref at 1. simpl heap.
  unfold h1 at 1. rewrite lookup_insert_eq. rewrite Hch, children_object_at.
  destruct (children (fields t)) as [cs|] eqn:Hcs; simpl.
  2:{ exists h1. assert (kept t = []) as ->.
      { unfold kept, ichildren, subtrees. by rewrite Hcs. }
      split; [apply looped_nil|].
      unfold pruned. rewrite Hcs. unfold h1. by rewrite insert_insert_eq. }
  assert (subtrees t = cs) as Hsub by (unfold subtrees; by rewrite Hcs).
  assert (children_stored h1 p t) as Hcst.
  { intros i c Hi. unfold h1. rewrite lookup_insert_ne.
    - by apply (stored_children h p t).
    - rewrite <- (app_nil_r p) at 1. intros Heq. by apply app_inv_head in Heq. }
  unfold bind at 1. rewrite <- Hsub.
  rewrite (filter_stored h1 m p t Hcst).
  unfold bind at 1.
  assert (parents_in h1 (parents ++ [p]) (ks ++ [key (fields t)])) as Hps1.
  { apply Forall2_app.
    - apply (parents_in_frame h); [done|]. intros l Hl. unfold h1.
      apply lookup_insert_ne. intros Heq. apply (Hout l [] Hl).
      by rewrite app_nil_r.
    - constructor; [|constructor]. exists n1. unfold h1.
      by rewrite lookup_insert_eq. }
  assert (∀ l i r, l ∈ parents ++ [p] → l ≠ p ++ i :: r) as Hout1.
  { intros l i r [Hl|Hl]%elem_of_app.
    - by apply Hout.
    - apply list_elem_of_singleton in Hl as ->. apply app_cons_ne. }
  assert (∀ i c, (i, c) ∈ kept t →
            (height c ≤ fuel)%nat ∧ stored h1 (p ++ [i]) c) as Hics.
  { intros i c [Hi Hf]%kept_lookup. split.
    - apply height_child in Hi. lia.
    - intros r s Hr. unfold h1. rewrite lookup_insert_ne.
      + by apply (stored_child h p t i c Hst Hi).
      + rewrite app_cons_eq. apply app_cons_ne. }
  pose proof (loop_walk fuel _ p _ Hspec (kept t) h1 m (kept_NoDup t)
                Hics Hps1 Hout1) as Hloop.
  destruct (forM_ _ _ _) as [[] [h2 m2]|e| |]; simpl in Hloop |- *; try done.
  assert (h2 !! p = Some n1) as Hp2.
  { rewrite (lp_frame _ _ _ _ _ _ _ Hloop).
    - unfold h1. by rewrite lookup_insert_eq.
    - intros i c r _ Heq. by apply app_cons_ne in Heq. }
  unfold update. simpl heap. rewrite Hp2. simpl.
  exists h2. split; [done|]. unfold pruned. by rewrite Hcs.
Qed.

Lemma skipped_registered t : skipped t = true → registered t = false.
Proof.
  unfold skipped, registered.
  destruct (is_namespace (fields t)), (hasNonNamespaceChild t); done.
Qed.

Lemma walked_after ks t p h m n1 res :
  final_object (fqdn_keys ks (name (fields t))) p t (Some (pruned p t n1)) →
  after_outcome ks t p h
    (if registered t then set_property (fqdn_keys ks (name (fields t))) p m
     else m) n1 res →
  walk_outcome ks t p h m res.
Proof.
  destruct res as [[] [h' m']|e| |]; simpl; try done.
  - intros Hfin (h2 & [Lfin Lfr Lsnd Lmono Lcomp] & ->). split.
    + intros [|i r] s Hr.
      * simpl in Hr. injection Hr as <-.
        by rewrite app_nil_r, lookup_insert_eq, name_below_nil.
      * apply reached_cons in Hr as (c & Hc & Hr).
        rewrite lookup_insert_ne by apply app_cons_ne.
        rewrite (name_below_cons ks t i c)
          by (by apply kept_lookup in Hc as [? _]).
        by apply (Lfin i c).
    + intros q Hq.
      assert (p ≠ q) as Hne.
      { intros <-. specialize (Hq []). rewrite app_nil_r in Hq.
        by specialize (Hq eq_refl). }
      rewrite lookup_insert_ne by done. rewrite Lfr.
      * by rewrite lookup_insert_ne.
      * intros i c r Hc ->. rewrite <- (reached_kept t i c r Hc). by apply Hq.
    + intros k l Hk. apply Lsnd in Hk as [Hk|(i & c & r & s & Hc & -> & Hr & Hreg & ->)].
      * destruct (registered t) eqn:Hreg; [|by left].
        rewrite set_property_lookup in Hk. case_bool_decide as Hd; [|by left].
        injection Hk as <-. destruct Hd as [_ ->].
        right. exists [], t. by rewrite app_nil_r, name_below_nil.
      * right. exists (i :: r), s. rewrite (reached_kept t i c r Hc).
        rewrite (name_below_cons ks t i c)
          by (by apply kept_lookup in Hc as [? _]).
        done.
    + intros k Hk. apply Lmono. destruct (registered t); [|done].
      rewrite set_property_lookup. by case_bool_decide.
    + intros [|i r] s Hr Hreg Hne.
      * simpl in Hr. injection Hr as <-. rewrite name_below_nil in Hne |- *.
        apply Lmono. rewrite Hreg, set_property_lookup.
        by rewrite bool_decide_true.
      * apply reached_cons in Hr as (c & Hc & Hr).
        rewrite (name_below_cons ks t i c) in Hne |- *
          by (by apply kept_lookup in Hc as [? _]).
        by apply (Lcomp i c r s).
  - intros _ (i & c & r & s & Hc & Hr & Hs & He). exists (i :: r), s.
    split; [by rewrite (reached_kept t i c)|done].
Qed.

Theorem walk_correct fuel : walk_spec fuel.
Proof.
  induction fuel as [|fuel IH]; intros t p parents ks h m Hh Hst Hps Hout.
  { pose proof (height_pos t). lia. }
  pose proof (stored_root _ _ _ Hst) as Hp.
  change (Transform.walk (S fuel) p parents) with
    (let! _ := Transform.visit p parents in
     let! n := deref p in
     match children n with
     | None => ret tt
     | Some cs =>
         let! children :=
           filterM (λ l, let! x := deref l in ret (Transform.filter x)) cs in
         let! _ := forM_ (λ l, Transform.walk fuel l (parents ++ [p])) children in
         update p (set_children (Some children))
     end).
  unfold bind at 1. rewrite (visit_stored h m p t parents ks Hst Hps).
  cbv zeta.
  destruct (skipped t) eqn:Hsk.
  - apply (walked_after ks t p h m (object_at p t)).
    { unfold final_object. by rewrite Hsk. }
    rewrite (skipped_registered t Hsk).
    rewrite <- (insert_id h p (object_at p t) Hp) at 2.
    by apply (after_visit fuel ks p parents t h m (object_at p t)).
  - destruct (annotated _ (object_at p t)) as [e|n1] eqn:Han.
    + exists [], t. split; [done|]. split; [done|].
      by apply (annotated_inl _ (object_at p t)) in Han.
    + apply (walked_after ks t p h m n1).
      { unfold final_object. rewrite Hsk. by exists n1. }
      apply annotated_inr in Han as (Hch & Hkey & _).
      by apply (after_visit fuel ks p parents t h _ n1).
Qed.

End Walk.

(** ** The store of a loaded document *)

Section Load.
Implicit Types (t s c : tree) (p q r : loc).

Lemma load_at_eq p t :
  load_at p t = <[p := object_at p t]> (load_children p 0 (subtrees t)).
Proof.
  destruct t as [n]. unfold subtrees. simpl.
  by destruct (children n).
Qed.

Lemma load_children_lookup p cs :
  Forall loaded cs →
  ∀ i,
    (∀ j r, load_children p i cs !! (p ++ (i + j) :: r)
            = c ← cs !! j; object_at (p ++ (i + j) :: r) <$> subtree c r)
    ∧ (∀ q, is_Some (load_children p i cs !! q) →
            ∃ j r, q = p ++ (i + j) :: r).
Proof.
  induction 1 as [|c cs Hc _ IH]; intros i.
  { split; [done|]. intros q [x Hx]. done. }
  destruct (Hc (p ++ [i])) as [Hc1 Hc2].
  destruct (IH (S i)) as [IH1 IH2].
  split.
  - intros j r. simpl. destruct j as [|j].
    + rewrite Nat.add_0_r. simpl. rewrite <- app_cons_eq.
      rewrite lookup_union_l.
      * apply Hc1.
      * destruct (load_children p (S i) cs !! ((p ++ [i]) ++ r)) eqn:Hl; [|done].
        exfalso. destruct (IH2 ((p ++ [i]) ++ r)) as (j & r' & Heq); [by eexists|].
        rewrite app_cons_eq in Heq. apply app_cons_inj in Heq as [Heq _]. lia.
    + simpl. rewrite lookup_union_r.
      * replace (i + S j) with (S i + j) by lia. apply IH1.
      * destruct (load_at (p ++ [i]) c !! (p ++ (i + S j) :: r)) eqn:Hl; [|done].
        exfalso. destruct (Hc2 (p ++ (i + S j) :: r)) as (r' & Heq); [by eexists|].
        rewrite app_cons_eq in Heq. apply app_cons_inj in Heq as [Heq _]. lia.
  - intros q Hq. simpl in Hq. apply lookup_union_is_Some in Hq as [Hq|Hq].
    + destruct (Hc2 q Hq) as (r & ->). exists 0, r.
      by rewrite Nat.add_0_r, app_cons_eq.
    + destruct (IH2 q Hq) as (j & r & ->). exists (S j), r.
      by replace (i + S j) with (S i + j) by lia.
Qed.

Lemma subtrees_loaded n t :
  (∀ c, (height c < n)%nat → loaded c) → (height t ≤ n)%nat →
  Forall loaded (subtrees t).
Proof.
  intros IH Hh. apply Forall_lookup. intros i c Hi.
  apply IH. apply height_child in Hi. lia.
Qed.

Lemma all_loaded t : loaded t.
Proof.
  remember (height t) as n eqn:Hn. assert (height t ≤ n)%nat as Hle by lia.
  clear Hn. revert t Hle.
  induction n as [n IH] using lt_wf_ind. intros t Hle p.
  assert (Forall loaded (subtrees t)) as Hcs.
  { apply (subtrees_loaded n); [|done]. intros c Hc. by apply (IH (height c)). }
  destruct (load_children_lookup p _ Hcs 0) as [H1 H2].
  rewrite load_at_eq. split.
  - intros [|i r].
    + rewrite app_nil_r, lookup_insert_eq. done.
    + rewrite lookup_insert_ne by apply app_cons_ne.
      specialize (H1 i r). simpl in H1. rewrite H1. simpl.
      by destruct (subtrees t !! i).
  - intros q Hq. destruct (decide (p = q)) as [<-|Hne].
    + exists []. by rewrite app_nil_r.
    + rewrite lookup_insert_ne in Hq by done.
      destruct (H2 q Hq) as (j & r & ->). by exists (j :: r).
Qed.

Lemma load_lookup t q : load t !! q = object_at q <$> subtree t q.
Proof. destruct (all_loaded t []) as [H _]. apply (H q). Qed.

Lemma load_stored t : stored (load t) [] t.
Proof. intros r s Hs. simpl. by rewrite load_lookup, Hs. Qed.

End Load.

(** ** The transformer on a document *)

Section Transformer.
Implicit Types (t s c : tree) (p q r : loc) (m : gmap string loc) (σ : State).

Lemma name_below_fullName t q s : name_below [] t q s = fullName t q s.
Proof.
  unfold name_below, fullName. rewrite fqdn_keys_eq. simpl.
  by rewrite list_fmap_compose.
Qed.

Theorem transform_outcome t :
  match transform t with
  | Ok m σ => namespaces σ = m ∧ walked [] t [] (load t) ∅ (heap σ) m
  | Throw e => ∃ q s, throws_at t q s e
  | Dangling | OutOfFuel => False
  end.
Proof.
  unfold transform, Transform.run, bind.
  assert (parents_in (load t) [] []) as Hps by constructor.
  assert (∀ (l : loc) r, l ∈ [] → l ≠ [] ++ r) as Hout.
  { intros l r Hl. by apply elem_of_nil in Hl. }
  pose proof (walk_correct (height t) t [] [] [] (load t) ∅
                (le_n _) (load_stored t) Hps Hout) as H.
  destruct (Transform.walk _ _ _ _) as [[] σ|e| |]; simpl in H |- *; done.
Qed.

(** The bound of [transform] is enough: a larger one gives the same. *)
Theorem run_fuel t fuel :
  (height t ≤ fuel)%nat → Transform.run fuel [] (load t) = transform t.
Proof.
  intros Hle. pose proof (transform_outcome t) as H.
  unfold transform, Transform.run, bind in H |- *.
  rewrite (walk_fuel (height t) fuel); [done|done|].
  intros E. by rewrite E in H.
Qed.

Lemma transform_final t m σ q s :
  transform t = Ok m σ → reached t q = Some s →
  final_object (fullName t q s) q s (heap σ !! q).
Proof.
  intros Ht Hr. pose proof (transform_outcome t) as H. rewrite Ht in H.
  destruct H as [_ H]. rewrite <- name_below_fullName.
  apply (wk_final _ _ _ _ _ _ _ H q s Hr).
Qed.

Lemma transform_frame t m σ q :
  transform t = Ok m σ → reached t q = None → heap σ !! q = load t !! q.
Proof.
  intros Ht Hr. pose proof (transform_outcome t) as H. rewrite Ht in H.
  destruct H as [_ H]. apply (wk_frame _ _ _ _ _ _ _ H).
  by intros r ->.
Qed.

Lemma transform_sound t m σ k q :
  transform t = Ok m σ → m !! k = Some q →
  ∃ s, reached t q = Some s ∧ registered s = true ∧ k = fullName t q s.
Proof.
  intros Ht Hk. pose proof (transform_outcome t) as H. rewrite Ht in H.
  destruct H as [_ H].
  destruct (wk_sound _ _ _ _ _ _ _ H k q Hk) as [He|(r & s & -> & Hr & Hreg & ->)].
  - by rewrite lookup_empty in He.
  - exists s. by rewrite name_below_fullName.
Qed.

Lemma transform_complete t m σ q s :
  transform t = Ok m σ → reached t q = Some s → registered s = true →
  fullName t q s ≠ "__proto__" → is_Some (m !! fullName t q s).
Proof.
  intros Ht Hr Hreg Hne. pose proof (transform_outcome t) as H. rewrite Ht in H.
  destruct H as [_ H]. rewrite <- name_below_fullName in Hne |- *.
  by apply (wk_complete _ _ _ _ _ _ _ H q s).
Qed.

Lemma transform_throws t e :
  transform t = Throw e → ∃ q s, throws_at t q s e.
Proof.
  intros Ht. pose proof (transform_outcome t) as H. by rewrite Ht in H.
Qed.

Lemma transform_returns t m σ q s e :
  transform t = Ok m σ → ¬ throws_at t q s e.
Proof.
  intros Ht (Hr & Hsk & He).
  pose proof (transform_final t m σ q s Ht Hr) as H.
  unfold final_object in H. rewrite Hsk in H. destruct H as (n1 & Han & _).
  unfold annotated in Han. change (type (object_at q s)) with (type (fields s)) in Han.
  by rewrite He in Han.
Qed.

Lemma transform_total t :
  (∀ q s e, ¬ throws_at t q s e) → ∃ m σ, transform t = Ok m σ.
Proof.
  intros Hno. pose proof (transform_outcome t) as H.
  destruct (transform t) as [m σ|e| |]; [by eauto| |done|done].
  destruct H as (q & s & H). by apply Hno in H.
Qed.

(** The [children] of the object a returned walk leaves at a position. *)
Lemma final_children fq q s n :
  final_object fq q s (Some n) →
  children n =
  match children (fields s) with
  | None => None
  | Some _ => Some ((λ ic, q ++ [ic.1]) <$> kept s)
  end.
Proof.
  unfold final_object, pruned. destruct (skipped s).
  - intros [= ->]. destruct (children (fields s)) eqn:E; [done|].
    by rewrite children_object_at, E.
  - intros (n1 & Han & [= ->]). apply annotated_inr in Han as [Hch _].
    destruct (children (fields s)) eqn:E; [done|].
    by rewrite Hch, children_object_at, E.
Qed.

Lemma reached_app t q r s :
  reached t q = Some s → reached t (q ++ r) = reached s r.
Proof.
  revert t. induction q as [|i q IH]; intros t; simpl.
  - by intros [= ->].
  - destruct (subtrees t !! i) as [c|]; [|done].
    destruct (Transform.filter (fields c)); [|done]. apply IH.
Qed.

Lemma reached_snoc t q i c :
  reached t (q ++ [i]) = Some c →
  ∃ s, reached t q = Some s ∧ (i, c) ∈ kept s.
Proof.
  revert t. induction q as [|j q IH]; intros t; simpl.
  - destruct (subtrees t !! i) as [c'|] eqn:Hi; [|done].
    destruct (Transform.filter (fields c')) eqn:Hf; [|done].
    intros [= ->]. exists t. split; [done|]. by apply kept_lookup.
  - destruct (subtrees t !! j) as [c'|]; [|done].
    destruct (Transform.filter (fields c')); [|done]. apply IH.
Qed.

Lemma reached_subtree t q s : reached t q = Some s → subtree t q = Some s.
Proof.
  revert t. induction q as [|i q IH]; intros t; simpl; [done|].
  destruct (subtrees t !! i) as [c|]; [|done].
  destruct (Transform.filter (fields c)); [|done]. apply IH.
Qed.

(** The tree the transformer leaves is made of the positions it reached. *)
Theorem in_tree_reached t m σ q :
  transform t = Ok m σ →
  in_tree (heap σ) [] q ↔ is_Some (reached t q).
Proof.
  intros Ht. split.
  - induction 1 as [|q n cs c _ [s Hs] Hq Hcs Hc]; [by eexists|].
    pose proof (transform_final t m σ q s Ht Hs) as Hfin.
    rewrite Hq in Hfin. apply final_children in Hfin.
    rewrite Hcs in Hfin. destruct (children (fields s)); [|done].
    injection Hfin as ->.
    apply list_elem_of_fmap in Hc as ([i c'] & -> & Hic). simpl.
    rewrite (reached_app t q [i] s Hs). rewrite (reached_kept s i c' [] Hic).
    by eexists.
  - revert q. induction q as [|i q IH] using rev_ind; intros [c Hc].
    { constructor. }
    apply reached_snoc in Hc as (s & Hs & Hic).
    pose proof (transform_final t m σ q s Ht Hs) as Hfin.
    assert (∃ n, heap σ !! q = Some n) as [n Hn].
    { unfold final_object in Hfin. destruct (skipped s); [by eexists|].
      destruct Hfin as (n1 & _ & ->). by eexists. }
    rewrite Hn in Hfin. apply final_children in Hfin.
    assert (is_Some (children (fields s))) as [cs Hcs].
    { apply kept_lookup in Hic as [Hi _]. unfold subtrees in Hi.
      destruct (children (fields s)); [by eexists|]. done. }
    rewrite Hcs in Hfin.
    apply (in_tree_child _ _ q n _ _ (IH (ex_intro _ s Hs)) Hn Hfin).
    by apply (list_elem_of_fmap_2' _ _ (i, c)).
Qed.

End Transformer.

(** ** The transformer at work *)

Section Tests.

Example trim_newline :
  JsString.trim (String.append "  beta " (String (Ascii.ascii_of_nat 10) ""))
  = "beta".
Proof. reflexivity. Qed.

Example trim_no_break_space :
  JsString.trim (JsString.of_bytes [194; 160; 97; 32; 98; 226; 128; 168])
  = "a b".
Proof. reflexivity. Qed.

Example processTags_example :
  Transform._processTags
    [ {| tag := "chrome-permission"; text := " tabs" |};
      {| tag := "chrome-channel"; text := "beta" |};
      {| tag := "see"; text := "elsewhere" |};
      {| tag := "chrome-deprecated-since"; text := "Chrome 88" |};
      {| tag := "chrome-permission"; text := "tabs " |};
      {| tag := "deprecated"; text := "Use another." |};
      {| tag := "chrome-channel"; text := " dev " |} ]
  = {| channel := "dev"; platformAppsOnly := None; since := None;
       permissions := Some ["tabs"; "tabs"]; manifestKeys := None;
       deprecated := Some {| value := "Use another.";
                             deprecated_since := Some "Chrome 88" |};
       minManifest := None; maxManifest := None;
       disallowServiceWorkers := None |}.
Proof. reflexivity. Qed.

Example filter_underscore :
  Transform.filter (fields (Examples.decl "_x" "Function" None)) = false.
Proof. reflexivity. Qed.

Example fullName_tabs :
  fullName Examples.project1 [0; 0]
    (Examples.decl "tabs" "Namespace"
       (Some [ Examples.decl "Tab" "Interface" None;
               Examples.decl "_hidden" "Function" None ]))
  = "chrome.tabs".
Proof. reflexivity. Qed.

Example transform_project1 :
  transform Examples.project1
  = Ok {[ "chrome.tabs" := [0; 0] ]} Examples.state1.
Proof. vm_compute. reflexivity. Qed.

Example transform_without_argument :
  transform
    (Examples.decl "proj" "Project"
       (Some [ Examples.member "onFoo" (Examples.reference "Event" []) ]))
  = Throw (ReferenceWithoutArgument (Some "Event")).
Proof. vm_compute. reflexivity. Qed.

Example transform_unexpected_argument :
  transform
    (Examples.decl "proj" "Project"
       (Some [ Examples.member "onFoo"
                 (Examples.reference "events.Event" [Examples.intrinsic "string"]) ]))
  = Throw (UnexpectedFirstArgument (Examples.intrinsic "string")).
Proof. vm_compute. reflexivity. Qed.

End Tests.

(** ** Properties of the tag parser *)

Section Tags.
Implicit Types (t : CommentTag) (acc : FeatureInfo * Deprecated).

Lemma processTag_channel acc t :
  channel (Transform.processTag acc t).1 =
  if decide (is_channel t) then JsString.trim (text t) else channel acc.1.
Proof.
  unfold is_channel, Transform.processTag. destruct acc as [out d].
  repeat case_bool_decide; destruct (decide _); simpl; try done; congruence.
Qed.

Lemma processTag_permissions acc t :
  permissions (Transform.processTag acc t).1 =
  if decide (is_permission t)
  then Some (default [] (permissions acc.1) ++ [JsString.trim (text t)])
  else permissions acc.1.
Proof.
  unfold is_permission, Transform.processTag. destruct acc as [out d].
  repeat case_bool_decide; destruct (decide _); simpl; try done; congruence.
Qed.

Lemma fold_channel tags acc :
  channel (fold_left Transform.processTag tags acc).1 =
  match last (base.filter is_channel tags) with
  | Some t => JsString.trim (text t)
  | None => channel acc.1
  end.
Proof.
  revert acc. induction tags as [|t tags IH]; intros acc; [done|].
  simpl. rewrite IH, filter_cons, processTag_channel.
  destruct (decide (is_channel t)); [|done].
  rewrite last_cons. by destruct (last _).
Qed.

Lemma fold_permissions tags acc :
  permissions (fold_left Transform.processTag tags acc).1 =
  match base.filter is_permission tags with
  | [] => permissions acc.1
  | ps => Some (default [] (permissions acc.1) ++ (JsString.trim ∘ text <$> ps))
  end.
Proof.
  revert acc. induction tags as [|t tags IH]; intros acc; [done|].
  simpl. rewrite IH, filter_cons, processTag_permissions.
  destruct (decide (is_permission t)); [|done].
  destruct (base.filter is_permission tags); simpl.
  - done.
  - by rewrite <- app_assoc.
Qed.

(** The channel [_processTags] gives for a tag sequence: "stable" without
    a [chrome-channel] tag, the trimmed text of the last such tag with
    one. *)
Lemma processTags_channel (tags : list CommentTag) :
  channel (Transform._processTags tags) =
  match last (base.filter (λ t, tag t = "chrome-channel") tags) with
  | None => "stable"
  | Some t => JsString.trim (text t)
  end.
Proof.
  unfold Transform._processTags. rewrite fold_channel.
  fold is_channel. by destruct (last _).
Qed.

(** C5: [_feature.permissions] is the list of the trimmed texts of the
    [chrome-permission] tags, in the order of the tags and with every
    repeat kept, and it is absent when there is no such tag. *)
Theorem C5_permissions_in_order (tags : list CommentTag) :
  permissions (Transform._processTags tags) =
  match base.filter (λ t, tag t = "chrome-permission") tags with
  | [] => None
  | ps => Some (JsString.trim ∘ text <$> ps)
  end.
Proof.
  unfold Transform._processTags. rewrite fold_permissions. done.
Qed.

End Tags.

(** ** Properties of the transformer *)

Section Claims.
Implicit Types (t s c : tree) (p q r : loc) (m : gmap string loc) (σ : State).

Lemma registered_iff s :
  registered s = true ↔
  kindString (fields s) = Some "Namespace" ∧ hasNonNamespaceChild s = true.
Proof.
  unfold registered, is_namespace.
  rewrite andb_true_iff, bool_decide_eq_true. done.
Qed.

Lemma skipped_iff s :
  skipped s = true ↔
  kindString (fields s) = Some "Namespace" ∧ hasNonNamespaceChild s = false.
Proof.
  unfold skipped, is_namespace.
  rewrite andb_true_iff, bool_decide_eq_true, negb_true_iff. done.
Qed.

(** C1, as stated, fails: in [project1] the namespace [_internal] has a
    child that is not a namespace, and the mapping does not hold it: the
    walk dropped it from the children of [chrome]. *)
Lemma C1_counterexample :
  ∃ m σ s,
    transform Examples.project1 = Ok m σ
    ∧ subtree Examples.project1 [0; 1] = Some s
    ∧ kindString (fields s) = Some "Namespace"
    ∧ hasNonNamespaceChild s = true
    ∧ ∀ k, m !! k ≠ Some [0; 1].
Proof.
  exists {[ "chrome.tabs" := [0; 0] ]}, Examples.state1. eexists.
  split; [vm_compute; reflexivity|].
  split; [reflexivity|].
  split; [reflexivity|].
  split; [reflexivity|].
  intros k Hk. apply lookup_singleton_Some in Hk as [_ Hk]. discriminate.
Qed.

(** C1, amended: when the transformer returns, (a) every entry of the
    mapping holds a node the walk reached, of kind Namespace, with a child
    that is not a namespace, under the key that is its fully-qualified name;
    (b) every such node whose fully-qualified name is not [__proto__] has
    that name as a key of the mapping, and the entry holds the node itself
    when no other such node has the same fully-qualified name. *)
Theorem C1_namespaces_of_reached_nodes t m σ :
  transform t = Ok m σ →
  (∀ k q, m !! k = Some q →
     ∃ s, reached t q = Some s
          ∧ kindString (fields s) = Some "Namespace"
          ∧ hasNonNamespaceChild s = true
          ∧ k = fullName t q s)
  ∧ (∀ q s,
       reached t q = Some s →
       kindString (fields s) = Some "Namespace" →
       hasNonNamespaceChild s = true →
       fullName t q s ≠ "__proto__" →
       ∃ q', m !! fullName t q s = Some q'
             ∧ ((∀ q2 s2,
                   reached t q2 = Some s2 →
                   kindString (fields s2) = Some "Namespace" →
                   hasNonNamespaceChild s2 = true →
                   fullName t q2 s2 = fullName t q s → q2 = q) →
                q' = q)).
Proof.
  intros Ht. split.
  - intros k q Hk.
    destruct (transform_sound t m σ k q Ht Hk) as (s & Hr & Hreg & ->).
    apply registered_iff in Hreg as [Hns Hhas]. by exists s.
  - intros q s Hr Hns Hhas Hne.
    destruct (transform_complete t m σ q s Ht Hr) as [q' Hq']; [|done|].
    { by apply registered_iff. }
    exists q'. split; [done|]. intros Huniq.
    destruct (transform_sound t m σ _ q' Ht Hq') as (s' & Hr' & Hreg' & Heq).
    apply registered_iff in Hreg' as [Hns' Hhas'].
    by apply (Huniq q' s').
Qed.

(** The amended C1 on [project1]. *)
Lemma C1_witness :
  transform Examples.project1 = Ok {[ "chrome.tabs" := [0; 0] ]} Examples.state1
  ∧ (∀ k q, ({[ "chrome.tabs" := [0; 0] ]} : gmap string loc) !! k = Some q →
       ∃ s, reached Examples.project1 q = Some s
            ∧ kindString (fields s) = Some "Namespace"
            ∧ hasNonNamespaceChild s = true
            ∧ k = fullName Examples.project1 q s).
Proof.
  assert (transform Examples.project1
          = Ok {[ "chrome.tabs" := [0; 0] ]} Examples.state1) as H
    by (vm_compute; reflexivity).
  split; [exact H|].
  exact (proj1 (C1_namespaces_of_reached_nodes _ _ _ H)).
Defined.

(** C2, as stated, fails: in [project1] the namespace [chrome] has only
    namespaces for children; it is in the tree the transformer leaves, and
    it has neither [_name] nor [_feature]. *)
Lemma C2_counterexample :
  ∃ m σ n,
    transform Examples.project1 = Ok m σ
    ∧ in_tree (heap σ) [] [0]
    ∧ heap σ !! [0] = Some n
    ∧ _name n = None ∧ _feature n = None.
Proof.
  exists {[ "chrome.tabs" := [0; 0] ]}, Examples.state1. eexists.
  split; [vm_compute; reflexivity|].
  split.
  { eapply (in_tree_child _ _ [] _ [[0]] [0]).
    - apply in_tree_root.
    - vm_compute. reflexivity.
    - reflexivity.
    - apply list_elem_of_here. }
  split; [vm_compute; reflexivity|].
  split; reflexivity.
Qed.

(** C2, amended: when the transformer returns, every object of the tree
    it leaves is at a position the walk reached; unless the node there is a
    namespace with no child of another kind, the object has [_name], the
    fully-qualified name, and [_feature], the parsed tags of its comment;
    if the node is such a namespace, the three computed properties are as
    they were in the input. *)
Theorem C2_computed_fields_unless_skipped t m σ q :
  transform t = Ok m σ → in_tree (heap σ) [] q →
  ∃ s n,
    reached t q = Some s ∧ heap σ !! q = Some n
    ∧ (skipped s = false →
         _name n = Some (fullName t q s)
         ∧ _feature n =
             Some (Transform._processTags
                     (default [] (comment (fields s) ≫= tags))))
    ∧ (skipped s = true →
         _name n = _name (fields s) ∧ _feature n = _feature (fields s)
         ∧ _event n = _event (fields s)).
Proof.
  intros Ht Hin. apply (in_tree_reached t m σ q Ht) in Hin as [s Hs].
  pose proof (transform_final t m σ q s Ht Hs) as Hfin.
  unfold final_object in Hfin. destruct (skipped s) eqn:Hsk.
  - eexists s, _. split; [done|]. split; [done|].
    split; [intros ?; congruence|].
    intros _. unfold pruned. by destruct (children (fields s)).
  - destruct Hfin as (n1 & Han & Hq).
    eexists s, _. split; [done|]. split; [done|].
    split; [|intros ?; congruence].
    intros _. apply annotated_inr in Han as (_ & _ & Hn & Hf).
    unfold pruned. by destruct (children (fields s)).
Qed.

(** The amended C2 at the namespace [chrome] of [project1]. *)
Lemma C2_witness :
  transform Examples.project1 = Ok {[ "chrome.tabs" := [0; 0] ]} Examples.state1
  ∧ in_tree (heap Examples.state1) [] [0]
  ∧ ∃ s n,
      reached Examples.project1 [0] = Some s
      ∧ heap Examples.state1 !! [0] = Some n
      ∧ (skipped s = false →
           _name n = Some (fullName Examples.project1 [0] s)
           ∧ _feature n =
               Some (Transform._processTags
                       (default [] (comment (fields s) ≫= tags))))
      ∧ (skipped s = true →
           _name n = _name (fields s) ∧ _feature n = _feature (fields s)
           ∧ _event n = _event (fields s)).
Proof.
  assert (transform Examples.project1
          = Ok {[ "chrome.tabs" := [0; 0] ]} Examples.state1) as H
    by (vm_compute; reflexivity).
  assert (in_tree (heap Examples.state1) [] [0]) as Hin.
  { eapply (in_tree_child _ _ [] _ [[0]] [0]).
    - apply in_tree_root.
    - vm_compute. reflexivity.
    - reflexivity.
    - apply list_elem_of_here. }
  split; [exact H|]. split; [exact Hin|].
  exact (C2_computed_fields_unless_skipped _ _ _ _ H Hin).
Defined.

Lemma event_of_raises ty :
  (∃ e, event_of (Some ty) = inl e) ↔ raises ty.
Proof.
  unfold raises, event_of, Transform.parameters.
  destruct (bool_decide (Ty.type ty = "reference")) eqn:Href; simpl.
  2:{ apply bool_decide_eq_false in Href. split; [by intros [e ?]|tauto]. }
  apply bool_decide_eq_true in Href.
  destruct (bool_decide (Ty.name ty ∈ _)) eqn:Hrec.
  2:{ apply bool_decide_eq_false in Hrec. split; [by intros [e ?]|tauto]. }
  apply bool_decide_eq_true in Hrec.
  destruct (Transform.first (Ty.typeArguments ty)) as [a|].
  2:{ split; [tauto|]. intros _. by eexists. }
  repeat case_bool_decide.
  - split; [by intros [e ?]|]. intros (_ & _ & [?|(a' & _ & ? & _)]); done.
  - split; [intros _|intros _; by eexists].
    do 2 (split; [done|]). right. by exists a.
  - split; [by intros [e ?]|].
    intros (_ & _ & [?|(a' & [= <-] & _ & _ & ?)]); done.
  - split; [by intros [e ?]|].
    intros (_ & _ & [?|(a' & [= <-] & _ & ? & _)]); done.
Qed.

(** C3, as stated, fails: in [project3] the type of the member is the
    reference [CustomChromeEvent] with the intrinsic type [string] for
    first argument, the walk visits it, and the transformer returns. *)
Lemma C3_counterexample :
  ∃ m σ s ty a,
    transform Examples.project3 = Ok m σ
    ∧ reached Examples.project3 [0] = Some s
    ∧ type (fields s) = Some ty
    ∧ Ty.type ty = "reference"
    ∧ Ty.name ty = Some "CustomChromeEvent"
    ∧ Transform.first (Ty.typeArguments ty) = Some a
    ∧ Ty.type a = "intrinsic"
    ∧ Ty.name a = Some "string".
Proof.
  exists ∅, Examples.state3. do 3 eexists.
  split; [vm_compute; reflexivity|].
  split; [reflexivity|].
  repeat (split; [reflexivity|]). reflexivity.
Qed.

(** C3, amended: the transformer throws exactly when the walk reaches a
    node, not a namespace without a child of another kind, whose type is a
    reference to one of the three event types that has no first type
    argument, or that is not [CustomChromeEvent] and has for first type
    argument an intrinsic type with a name other than [never]. Nothing
    else makes it throw: otherwise it returns a mapping. A run that throws
    returns no mapping. *)
Theorem C3_throws_iff_bad_event_reference t :
  ((∃ e, transform t = Throw e) ↔
   ∃ q s ty, reached t q = Some s ∧ skipped s = false
             ∧ type (fields s) = Some ty ∧ raises ty)
  ∧ ((∃ e, transform t = Throw e) ∨ ∃ m σ, transform t = Ok m σ)
  ∧ (∀ e, transform t = Throw e → ∀ m σ, transform t ≠ Ok m σ).
Proof.
  split; [|split].
  - split.
    + intros [e He]. apply transform_throws in He as (q & s & Hr & Hsk & He).
      destruct (type (fields s)) as [ty|] eqn:Hty; [|done].
      exists q, s, ty. do 3 (split; [done|]).
      apply event_of_raises. by exists e.
    + intros (q & s & ty & Hr & Hsk & Hty & Hbad).
      apply event_of_raises in Hbad as [e He].
      pose proof (transform_outcome t) as H.
      destruct (transform t) as [m σ|e'| |] eqn:Ht; [|by eexists|done|done].
      exfalso. apply (transform_returns t m σ q s e Ht).
      split; [done|]. split; [done|]. by rewrite Hty.
  - pose proof (transform_outcome t) as H.
    destruct (transform t) as [m σ|e'| |]; [right|left|done|done]; by eauto.
  - intros e He m σ. by rewrite He.
Qed.

(** The object of a node at which [visit] got to its end. *)
Lemma visited_event t m σ q s :
  transform t = Ok m σ → reached t q = Some s → skipped s = false →
  ∃ n ev, heap σ !! q = Some n
          ∧ event_of (type (fields s)) = inr ev
          ∧ _event n = match ev with
                       | Some e => Some e
                       | None => _event (fields s)
                       end.
Proof.
  intros Ht Hr Hsk. pose proof (transform_final t m σ q s Ht Hr) as Hfin.
  unfold final_object in Hfin. rewrite Hsk in Hfin.
  destruct Hfin as (n1 & Han & Hq). unfold annotated in Han.
  change (type (object_at q s)) with (type (fields s)) in Han.
  destruct (event_of (type (fields s))) as [e|ev]; [done|].
  injection Han as <-. eexists _, ev. split; [done|]. split; [done|].
  unfold pruned. destruct (children (fields s)), ev; done.
Qed.

(** The object of a node that [visit] left as it was, or never saw. *)
Lemma unvisited_object t m σ q s :
  transform t = Ok m σ → subtree t q = Some s →
  reached t q = None ∨ skipped s = true →
  ∃ n, heap σ !! q = Some n
       ∧ _name n = _name (fields s) ∧ _feature n = _feature (fields s)
       ∧ _event n = _event (fields s)
       ∧ (reached t q = None → n = object_at q s).
Proof.
  intros Ht Hs Hcase. destruct (reached t q) as [s'|] eqn:Hr.
  - pose proof (reached_subtree t q s' Hr) as Hs'.
    assert (s' = s) as -> by congruence.
    destruct Hcase as [?|Hsk]; [done|].
    pose proof (transform_final t m σ q s Ht Hr) as Hfin.
    unfold final_object in Hfin. rewrite Hsk in Hfin.
    eexists. split; [done|]. unfold pruned.
    destruct (children (fields s)); done.
  - exists (object_at q s). split; [|done].
    by rewrite (transform_frame t m σ q Ht Hr), load_lookup, Hs.
Qed.

(** C6, as stated, fails: in [project6] the type of two nodes is the
    reference [Event] with a first type argument that is not intrinsic;
    the walk drops the first, whose name starts with an underscore, and
    [visit] returns early at the second, a namespace with no child of
    another kind; neither has [_event] when the transformer has returned. *)
Lemma C6_counterexample :
  ∃ m σ s0 s1 n0 n1 a,
    transform Examples.project6 = Ok m σ
    ∧ subtree Examples.project6 [0] = Some s0
    ∧ subtree Examples.project6 [1] = Some s1
    ∧ type (fields s0) = Some (Examples.reference "Event" [a])
    ∧ type (fields s1) = Some (Examples.reference "Event" [a])
    ∧ Ty.type a ≠ "intrinsic"
    ∧ heap σ !! [0] = Some n0 ∧ _event n0 = None
    ∧ heap σ !! [1] = Some n1 ∧ _event n1 = None.
Proof.
  exists ∅, Examples.state6. do 5 eexists.
  split; [vm_compute; reflexivity|].
  split; [reflexivity|]. split; [reflexivity|].
  split; [reflexivity|]. split; [reflexivity|].
  split; [discriminate|].
  split; [vm_compute; reflexivity|]. split; [reflexivity|].
  split; [vm_compute; reflexivity|]. reflexivity.
Qed.

(** C6, amended: for every node that the walk reaches and that is not a
    namespace without a child of another kind, whose type is a reference
    named [Event] or [events.Event] with a first type argument that is not
    an intrinsic type: when the transformer returns,
    [_event.addListenerParameters] of the node is the one-element list of
    a parameter named [callback] whose type is that argument. *)
Theorem C6_callback_parameter t m σ q s ty a :
  transform t = Ok m σ →
  reached t q = Some s → skipped s = false →
  type (fields s) = Some ty →
  Ty.type ty = "reference" →
  Ty.name ty = Some "Event" ∨ Ty.name ty = Some "events.Event" →
  Transform.first (Ty.typeArguments ty) = Some a →
  Ty.type a ≠ "intrinsic" →
  ∃ n, heap σ !! q = Some n
       ∧ _event n =
         Some {| addListenerParameters :=
                   Some [ Build_ParameterReflection (-1) "callback" 32768
                            {| isPrivate := None |} (Some a) ] |}.
Proof.
  intros Ht Hr Hsk Hty Href Hname Ha Hni.
  destruct (visited_event t m σ q s Ht Hr Hsk) as (n & ev & Hn & Hev & He).
  exists n. split; [done|]. rewrite He. clear He.
  rewrite Hty in Hev. unfold event_of, Transform.parameters in Hev.
  rewrite Ha in Hev.
  rewrite (bool_decide_true _ Href) in Hev.
  rewrite bool_decide_true in Hev.
  2:{ destruct Hname as [->| ->]; unfold Transform.chromeEventRefTypes;
        set_solver. }
  rewrite bool_decide_false in Hev by (destruct Hname as [->| ->]; done).
  rewrite (bool_decide_false _ Hni) in Hev.
  simpl in Hev. by injection Hev as <-.
Qed.

(** The amended C6 at the member [onFoo] of [project6]. *)
Lemma C6_witness :
  transform Examples.project6 = Ok ∅ Examples.state6
  ∧ ∃ n, heap Examples.state6 !! [2] = Some n
         ∧ _event n =
           Some {| addListenerParameters :=
                     Some [ Build_ParameterReflection (-1) "callback" 32768
                              {| isPrivate := None |}
                              (Some Examples.callback) ] |}.
Proof.
  assert (transform Examples.project6 = Ok ∅ Examples.state6) as H
    by (vm_compute; reflexivity).
  split; [exact H|].
  apply (C6_callback_parameter Examples.project6 ∅ Examples.state6 [2]
           (Examples.member "onFoo" (Examples.reference "Event" [Examples.callback]))
           (Examples.reference "Event" [Examples.callback]) Examples.callback H).
  - reflexivity.
  - reflexivity.
  - reflexivity.
  - reflexivity.
  - left. reflexivity.
  - reflexivity.
  - discriminate.
Defined.

(** C7: for every node whose type is a reference named [Event] or
    [events.Event] with the intrinsic type [never] for first type argument:
    [visit] does not throw at it, so the transformer returns when it throws
    at no other node; and when the transformer has returned, [_event] of
    the node is as the input had it (the node was not visited, or [visit]
    returned early) or is an object without [addListenerParameters]. *)
Theorem C7_declarative_event t q s ty a :
  subtree t q = Some s →
  type (fields s) = Some ty →
  Ty.type ty = "reference" →
  Ty.name ty = Some "Event" ∨ Ty.name ty = Some "events.Event" →
  Transform.first (Ty.typeArguments ty) = Some a →
  Ty.type a = "intrinsic" → Ty.name a = Some "never" →
  ((∀ q' s' e, throws_at t q' s' e → q' = q) → ∃ m σ, transform t = Ok m σ)
  ∧ (∀ m σ, transform t = Ok m σ →
       ∃ n, heap σ !! q = Some n
            ∧ (_event n = _event (fields s)
               ∨ _event n = Some {| addListenerParameters := None |})).
Proof.
  intros Hs Hty Href Hname Ha Hin Hnever.
  assert (event_of (type (fields s))
          = inr (Some {| addListenerParameters := None |})) as Hev.
  { rewrite Hty. unfold event_of, Transform.parameters. rewrite Ha.
    rewrite (bool_decide_true _ Href).
    rewrite bool_decide_true
      by (destruct Hname as [->| ->]; unfold Transform.chromeEventRefTypes;
          set_solver).
    rewrite bool_decide_false by (destruct Hname as [->| ->]; done).
    rewrite (bool_decide_true _ Hin).
    rewrite bool_decide_false by (by intros ?).
    done. }
  split.
  - intros Honly. apply transform_total. intros q' s' e Hthrow.
    pose proof (Honly q' s' e Hthrow) as ->.
    destruct Hthrow as (Hr & _ & He).
    apply reached_subtree in Hr. assert (s' = s) as -> by congruence.
    by rewrite Hev in He.
  - intros m σ Ht.
    destruct (reached t q) as [s'|] eqn:Hr.
    + pose proof (reached_subtree t q s' Hr) as Hs'.
      assert (s' = s) as -> by congruence.
      destruct (skipped s) eqn:Hsk.
      * destruct (unvisited_object t m σ q s Ht Hs) as (n & Hn & _ & _ & He & _);
          [by right|].
        exists n. split; [done|]. by left.
      * destruct (visited_event t m σ q s Ht Hr Hsk) as (n & ev & Hn & Hev' & He).
        exists n. split; [done|]. right.
        rewrite Hev in Hev'. injection Hev' as <-. done.
    + destruct (unvisited_object t m σ q s Ht Hs) as (n & Hn & _ & _ & He & _);
        [by left|].
      exists n. split; [done|]. by left.
Qed.

(** C7 at the member [onBar] of [project7]. *)
Lemma C7_witness :
  (∃ m σ, transform Examples.project7 = Ok m σ)
  ∧ (∀ m σ, transform Examples.project7 = Ok m σ →
       ∃ n, heap σ !! [0] = Some n
            ∧ (_event n = None
               ∨ _event n = Some {| addListenerParameters := None |})).
Proof.
  pose proof (C7_declarative_event Examples.project7 [0]
    (Examples.member "onBar" (Examples.reference "Event" [Examples.intrinsic "never"]))
    (Examples.reference "Event" [Examples.intrinsic "never"])
    (Examples.intrinsic "never")
    eq_refl eq_refl eq_refl (or_introl eq_refl) eq_refl eq_refl eq_refl)
    as [H1 H2].
  split; [|exact H2].
  exists ∅, Examples.state7. vm_compute. reflexivity.
Defined.

(** C8, as stated, fails: in [project8] the type of two nodes is the
    reference [CustomChromeEvent] with a first type argument that carries
    a call signature; the walk drops the first, whose name starts with an
    underscore, and [visit] returns early at the second, a namespace with
    no child of another kind; neither has [_event] when the transformer has
    returned. *)
Lemma C8_counterexample :
  ∃ m σ s0 s1 n0 n1 a sig,
    transform Examples.project8 = Ok m σ
    ∧ subtree Examples.project8 [0] = Some s0
    ∧ subtree Examples.project8 [1] = Some s1
    ∧ type (fields s0) = Some (Examples.reference "CustomChromeEvent" [a])
    ∧ type (fields s1) = Some (Examples.reference "CustomChromeEvent" [a])
    ∧ Ty.type a = "reflection"
    ∧ Transform.first (Ty.declaration a ≫= Ty.signatures) = Some sig
    ∧ heap σ !! [0] = Some n0 ∧ _event n0 = None
    ∧ heap σ !! [1] = Some n1 ∧ _event n1 = None.
Proof.
  exists ∅, Examples.state8. do 6 eexists.
  split; [vm_compute; reflexivity|].
  split; [reflexivity|]. split; [reflexivity|].
  split; [reflexivity|]. split; [reflexivity|].
  split; [reflexivity|]. split; [reflexivity|].
  split; [vm_compute; reflexivity|]. split; [reflexivity|].
  split; [vm_compute; reflexivity|]. reflexivity.
Qed.

(** C8, amended: for every node that the walk reaches and that is not a
    namespace without a child of another kind, whose type is a reference
    named [CustomChromeEvent] with a first type argument that carries a
    call signature: when the transformer returns,
    [_event.addListenerParameters] of the node is the parameter list of
    the first call signature. *)
Theorem C8_custom_event_parameters t m σ q s ty a sig :
  transform t = Ok m σ →
  reached t q = Some s → skipped s = false →
  type (fields s) = Some ty →
  Ty.type ty = "reference" →
  Ty.name ty = Some "CustomChromeEvent" →
  Transform.first (Ty.typeArguments ty) = Some a →
  Transform.first (Ty.declaration a ≫= Ty.signatures) = Some sig →
  ∃ n, heap σ !! q = Some n
       ∧ _event n = Some {| addListenerParameters := Ty.parameters sig |}.
Proof.
  intros Ht Hr Hsk Hty Href Hname Ha Hsig.
  destruct (visited_event t m σ q s Ht Hr Hsk) as (n & ev & Hn & Hev & He).
  exists n. split; [done|]. rewrite He. clear He.
  rewrite Hty in Hev. unfold event_of, Transform.parameters in Hev.
  rewrite Ha in Hev.
  rewrite (bool_decide_true _ Href) in Hev.
  rewrite bool_decide_true in Hev
    by (rewrite Hname; unfold Transform.chromeEventRefTypes; set_solver).
  rewrite (bool_decide_true _ Hname) in Hev.
  rewrite Hsig in Hev. simpl in Hev. by injection Hev as <-.
Qed.

(** The amended C8 at the member [onFoo] of [project8]. *)
Lemma C8_witness :
  transform Examples.project8 = Ok ∅ Examples.state8
  ∧ ∃ n, heap Examples.state8 !! [2] = Some n
         ∧ _event n =
           Some {| addListenerParameters :=
                     Some [ Build_ParameterReflection 7 "tab" 32768
                              {| isPrivate := None |}
                              (Some (Examples.intrinsic "string")) ] |}.
Proof.
  assert (transform Examples.project8 = Ok ∅ Examples.state8) as H
    by (vm_compute; reflexivity).
  split; [exact H|].
  apply (C8_custom_event_parameters Examples.project8 ∅ Examples.state8 [2]
           (Examples.member "onFoo"
              (Examples.reference "CustomChromeEvent" [Examples.callback]))
           (Examples.reference "CustomChromeEvent" [Examples.callback])
           Examples.callback
           (Build_Signature
              (Some [ Build_ParameterReflection 7 "tab" 32768
                        {| isPrivate := None |}
                        (Some (Examples.intrinsic "string")) ])) H);
    reflexivity.
Defined.

Lemma filtered_unreached t q s :
  q ≠ [] → subtree t q = Some s → Transform.filter (fields s) = false →
  reached t q = None.
Proof.
  revert t. induction q as [|i q IH]; intros t Hne; [done|].
  simpl. destruct (subtrees t !! i) as [c|]; [|done].
  intros Hs Hf. destruct q as [|j q].
  - simpl in Hs. injection Hs as ->. by rewrite Hf.
  - destruct (Transform.filter (fields c)); [|done]. by apply IH.
Qed.

(** C9: when the transformer returns, a node below the root that is marked
    private or whose name starts with an underscore is not in the tree the
    transformer leaves: its parent, if it is in that tree, no longer has it
    among its children; the object is as the input had it, every property
    unchanged and none added; and no entry of the mapping holds it. *)
Theorem C9_pruned_node_untouched t m σ q s :
  transform t = Ok m σ →
  q ≠ [] → subtree t q = Some s →
  default false (flags (fields s) ≫= isPrivate) = true
  ∨ JsString.startsWith (name (fields s)) "_" = true →
  heap σ !! q = load t !! q
  ∧ heap σ !! q = Some (object_at q s)
  ∧ ¬ in_tree (heap σ) [] q
  ∧ (∀ p n cs,
       in_tree (heap σ) [] p → heap σ !! p = Some n → children n = Some cs →
       q ∉ cs)
  ∧ (∀ k, m !! k ≠ Some q).
Proof.
  intros Ht Hne Hs Hpriv.
  assert (Transform.filter (fields s) = false) as Hf.
  { unfold Transform.filter. apply negb_false_iff, orb_true_iff. done. }
  pose proof (filtered_unreached t q s Hne Hs Hf) as Hr.
  assert (¬ in_tree (heap σ) [] q) as Hout.
  { intros Hin. apply (in_tree_reached t m σ q Ht) in Hin as [s' Hs'].
    congruence. }
  split; [by apply (transform_frame t m σ q Ht)|].
  split; [by rewrite (transform_frame t m σ q Ht Hr), load_lookup, Hs|].
  split; [done|].
  split.
  - intros p n cs Hp Hn Hcs Hin. apply Hout.
    by apply (in_tree_child _ _ p n cs q).
  - intros k Hk.
    destruct (transform_sound t m σ k q Ht Hk) as (s' & Hs' & _). congruence.
Qed.

(** C9 at the namespace [_internal] of [project1]. *)
Lemma C9_witness :
  transform Examples.project1 = Ok {[ "chrome.tabs" := [0; 0] ]} Examples.state1
  ∧ heap Examples.state1 !! [0; 1] = load Examples.project1 !! [0; 1]
  ∧ ¬ in_tree (heap Examples.state1) [] [0; 1]
  ∧ (∀ k, ({[ "chrome.tabs" := [0; 0] ]} : gmap string loc) !! k ≠ Some [0; 1]).
Proof.
  assert (transform Examples.project1
          = Ok {[ "chrome.tabs" := [0; 0] ]} Examples.state1) as H
    by (vm_compute; reflexivity).
  destruct (C9_pruned_node_untouched Examples.project1 _ _ [0; 1]
              (Examples.decl "_internal" "Namespace"
                 (Some [ Examples.decl "x" "Function" None ])) H)
    as (H1 & _ & H3 & _ & H5).
  - discriminate.
  - reflexivity.
  - right. reflexivity.
  - split; [exact H|]. split; [exact H1|]. split; [exact H3|exact H5].
Defined.

(** C10: [visit] decides on the children as the input has them. When the
    transformer returns, a namespace the walk reached that has a child of
    another kind, every such child being private or underscore-prefixed,
    has its fully-qualified name as a key of the mapping (the key
    [__proto__] apart, which an object takes for its prototype), and the
    entry holds the namespace itself when no other registered namespace has
    the same fully-qualified name; yet none of those children is among the
    children it is left with, nor anywhere in the tree. *)
Theorem C10_registered_before_pruning t m σ q s :
  transform t = Ok m σ →
  reached t q = Some s →
  kindString (fields s) = Some "Namespace" →
  hasNonNamespaceChild s = true →
  (∀ c, c ∈ subtrees s → kindString (fields c) ≠ Some "Namespace" →
        Transform.filter (fields c) = false) →
  fullName t q s ≠ "__proto__" →
  (∃ q', m !! fullName t q s = Some q'
         ∧ ((∀ q2 s2, reached t q2 = Some s2 → registered s2 = true →
                      fullName t q2 s2 = fullName t q s → q2 = q) →
            q' = q))
  ∧ (∃ n cs, heap σ !! q = Some n ∧ children n = Some cs
             ∧ ∀ i c, subtrees s !! i = Some c →
                      kindString (fields c) ≠ Some "Namespace" →
                      (q ++ [i] ∉ cs) ∧ ¬ in_tree (heap σ) [] (q ++ [i])).
Proof.
  intros Ht Hr Hns Hhas Hpriv Hne.
  assert (registered s = true) as Hreg by (by apply registered_iff).
  split.
  - destruct (transform_complete t m σ q s Ht Hr Hreg Hne) as [q' Hq'].
    exists q'. split; [done|]. intros Huniq.
    destruct (transform_sound t m σ _ q' Ht Hq') as (s' & Hr' & Hreg' & Heq).
    by apply (Huniq q' s').
  - pose proof (transform_final t m σ q s Ht Hr) as Hfin.
    assert (∃ n, heap σ !! q = Some n) as [n Hn].
    { unfold final_object in Hfin. destruct (skipped s); [by eexists|].
      destruct Hfin as (n1 & _ & ->). by eexists. }
    rewrite Hn in Hfin. apply final_children in Hfin.
    assert (is_Some (children (fields s))) as [cs0 Hcs0].
    { unfold hasNonNamespaceChild, subtrees in Hhas.
      destruct (children (fields s)); [by eexists|done]. }
    rewrite Hcs0 in Hfin. eexists n, _. split; [done|]. split; [done|].
    intros i c Hi Hkind.
    assert (Transform.filter (fields c) = false) as Hf.
    { apply Hpriv; [|done]. by apply list_elem_of_lookup_2 in Hi. }
    assert (reached t (q ++ [i]) = None) as Hnone.
    { rewrite (reached_app t q [i] s Hr). simpl. by rewrite Hi, Hf. }
    assert (¬ in_tree (heap σ) [] (q ++ [i])) as Hout.
    { intros Hin. apply (in_tree_reached t m σ _ Ht) in Hin as [s' Hs'].
      congruence. }
    split; [|done]. intros Hin. apply Hout.
    by apply (in_tree_child _ _ q n _ _
                (proj2 (in_tree_reached t m σ q Ht) (ex_intro _ s Hr)) Hn Hfin).
Qed.

(** C10 at the namespace [chrome] of [project10]. *)
Lemma C10_witness :
  transform Examples.project10 = Ok {[ "chrome" := [0] ]} Examples.state10
  ∧ (∃ q', ({[ "chrome" := [0] ]} : gmap string loc) !! "chrome" = Some q')
  ∧ (∃ n cs, heap Examples.state10 !! [0] = Some n ∧ children n = Some cs
             ∧ ([0; 0] ∉ cs) ∧ ¬ in_tree (heap Examples.state10) [] [0; 0]).
Proof.
  assert (transform Examples.project10
          = Ok {[ "chrome" := [0] ]} Examples.state10) as H
    by (vm_compute; reflexivity).
  destruct (C10_registered_before_pruning Examples.project10 _ _ [0]
              (Examples.decl "chrome" "Namespace"
                 (Some [ Examples.decl "_x" "Function" None;
                         Examples.decl "inner" "Namespace" None ])) H)
    as [(q' & Hq' & _) (n & cs & Hn & Hcs & Hall)].
  - reflexivity.
  - reflexivity.
  - reflexivity.
  - intros c Hc Hk.
    apply elem_of_cons in Hc as [->|Hc]; [reflexivity|].
    apply list_elem_of_singleton in Hc as ->. by destruct Hk.
  - discriminate.
  - split; [exact H|]. split; [by exists q'|].
    exists n, cs. split; [exact Hn|]. split; [exact Hcs|].
    apply (Hall 0 (Examples.decl "_x" "Function" None)); [reflexivity|discriminate].
Defined.

(** C4, as stated, fails: in [project1] neither the namespace [chrome],
    at which [visit] returns early, nor the namespace [_internal], which
    the walk drops, has a [chrome-channel] tag in its comment, and neither
    has a [_feature], so neither has the channel "stable", when the
    transformer has returned; the first of the two is in the tree the
    transformer leaves. *)
Lemma C4_counterexample :
  ∃ m σ s0 s1 n0 n1,
    transform Examples.project1 = Ok m σ
    ∧ subtree Examples.project1 [0] = Some s0
    ∧ subtree Examples.project1 [0; 1] = Some s1
    ∧ base.filter (λ x, tag x = "chrome-channel")
        (default [] (comment (fields s0) ≫= tags)) = []
    ∧ base.filter (λ x, tag x = "chrome-channel")
        (default [] (comment (fields s1) ≫= tags)) = []
    ∧ in_tree (heap σ) [] [0]
    ∧ heap σ !! [0] = Some n0 ∧ _feature n0 = None
    ∧ heap σ !! [0; 1] = Some n1 ∧ _feature n1 = None.
Proof.
  exists {[ "chrome.tabs" := [0; 0] ]}, Examples.state1. do 4 eexists.
  split; [vm_compute; reflexivity|].
  split; [reflexivity|]. split; [reflexivity|].
  split; [reflexivity|]. split; [reflexivity|].
  split.
  { eapply (in_tree_child _ _ [] _ [[0]] [0]).
    - apply in_tree_root.
    - vm_compute. reflexivity.
    - reflexivity.
    - apply list_elem_of_here. }
  split; [vm_compute; reflexivity|]. split; [reflexivity|].
  split; [vm_compute; reflexivity|]. reflexivity.
Qed.

(** C4, amended: for every node that the walk reaches and that is not a
    namespace without a child of another kind: when the transformer
    returns, the node has a [_feature], computed from the tags of the
    node's comment (none when it has no comment or the comment has no
    tags), and the channel of that [_feature] is "stable" when these tags
    have no [chrome-channel] tag, and the trimmed text of the last
    [chrome-channel] tag when they have one or more. *)
Theorem C4_node_channel_stable_or_last t m σ q s :
  transform t = Ok m σ →
  reached t q = Some s → skipped s = false →
  ∃ n f,
    heap σ !! q = Some n ∧ _feature n = Some f
    ∧ channel f =
      match last (base.filter (λ x, tag x = "chrome-channel")
                    (default [] (comment (fields s) ≫= tags))) with
      | None => "stable"
      | Some x => JsString.trim (text x)
      end.
Proof.
  intros Ht Hr Hsk. pose proof (transform_final t m σ q s Ht Hr) as Hfin.
  unfold final_object in Hfin. rewrite Hsk in Hfin.
  destruct Hfin as (n1 & Han & Hq).
  apply annotated_inr in Han as (_ & _ & _ & Hf).
  change (comment (object_at q s)) with (comment (fields s)) in Hf.
  eexists _, _. split; [exact Hq|]. split.
  - unfold pruned. destruct (children (fields s)); exact Hf.
  - apply processTags_channel.
Qed.

(** The amended C4 at the two functions of [project4]: the first has two
    [chrome-channel] tags, the second none. *)
Lemma C4_witness :
  transform Examples.project4 = Ok ∅ Examples.state4
  ∧ (∃ n f, heap Examples.state4 !! [0] = Some n ∧ _feature n = Some f
            ∧ channel f = "dev")
  ∧ (∃ n f, heap Examples.state4 !! [1] = Some n ∧ _feature n = Some f
            ∧ channel f = "stable").
Proof.
  assert (transform Examples.project4 = Ok ∅ Examples.state4) as H
    by (vm_compute; reflexivity).
  split; [exact H|]. split.
  - exact (C4_node_channel_stable_or_last Examples.project4 _ _ [0]
             (Examples.commented "query"
                [ {| tag := "chrome-channel"; text := " beta" |};
                  {| tag := "since"; text := "Chrome 90" |};
                  {| tag := "chrome-channel"; text := "dev " |} ])
             H eq_refl eq_refl).
  - exact (C4_node_channel_stable_or_last Examples.project4 _ _ [1]
             (Examples.commented "get"
                [ {| tag := "since"; text := "Chrome 90" |} ])
             H eq_refl eq_refl).
Defined.

End Claims.

(** ** More about the tag parser *)

Section MoreTags.
Implicit Types (x : CommentTag) (acc : FeatureInfo * Deprecated)
  (tags : list CommentTag).

(** A property that each tag of one name overwrites holds what the last
    such tag gave it. *)
Lemma fold_last_wins {A} (get : FeatureInfo → A) (nm : string)
    (v : CommentTag → A) :
  (∀ acc x, get (Transform.processTag acc x).1 =
            if decide (tag x = nm) then v x else get acc.1) →
  ∀ tags acc,
    get (fold_left Transform.processTag tags acc).1 =
    match last (tagged nm tags) with
    | Some x => v x
    | None => get acc.1
    end.
Proof.
  intros Hstep tags. unfold tagged.
  induction tags as [|x tags IH]; intros acc; [done|].
  simpl. rewrite IH, filter_cons, Hstep.
  destruct (decide (tag x = nm)); [|done].
  rewrite last_cons. by destruct (last _).
Qed.

Ltac step_cases :=
  intros [out d] x; unfold Transform.processTag;
  repeat case_bool_decide; destruct (decide _); simpl; try done; congruence.

(** X1: [since], [minManifest] and [maxManifest] each hold the trimmed
    text of the last tag of their name, and are absent without one. *)
Theorem X1_scalar_last_wins tags :
  since (Transform._processTags tags)
  = JsString.trim ∘ text <$> last (tagged "since" tags)
  ∧ minManifest (Transform._processTags tags)
    = JsString.trim ∘ text <$> last (tagged "chrome-min-manifest" tags)
  ∧ maxManifest (Transform._processTags tags)
    = JsString.trim ∘ text <$> last (tagged "chrome-max-manifest" tags).
Proof.
  unfold Transform._processTags. split; [|split].
  - rewrite (fold_last_wins since "since" (λ x, Some (JsString.trim (text x))))
      by step_cases.
    by destruct (last _).
  - rewrite (fold_last_wins minManifest "chrome-min-manifest"
               (λ x, Some (JsString.trim (text x)))) by step_cases.
    by destruct (last _).
  - rewrite (fold_last_wins maxManifest "chrome-max-manifest"
               (λ x, Some (JsString.trim (text x)))) by step_cases.
    by destruct (last _).
Qed.

Lemma fold_manifestKeys tags acc :
  manifestKeys (fold_left Transform.processTag tags acc).1 =
  match tagged "chrome-manifest" tags with
  | [] => manifestKeys acc.1
  | ks => Some (default [] (manifestKeys acc.1) ++ (JsString.trim ∘ text <$> ks))
  end.
Proof.
  unfold tagged. revert acc.
  induction tags as [|x tags IH]; intros acc; [done|].
  simpl. rewrite IH, filter_cons.
  assert (manifestKeys (Transform.processTag acc x).1 =
          if decide (tag x = "chrome-manifest")
          then Some (default [] (manifestKeys acc.1) ++ [JsString.trim (text x)])
          else manifestKeys acc.1) as ->.
  { revert acc x. step_cases. }
  destruct (decide (tag x = "chrome-manifest")); [|done].
  destruct (base.filter _ tags); simpl; [done|]. by rewrite <- app_assoc.
Qed.

(** X2: [manifestKeys] is the list of the trimmed texts of the
    [chrome-manifest] tags, in their order and with repeats, and is absent
    without such a tag. *)
Theorem X2_manifestKeys_in_order tags :
  manifestKeys (Transform._processTags tags) =
  match tagged "chrome-manifest" tags with
  | [] => None
  | ks => Some (JsString.trim ∘ text <$> ks)
  end.
Proof. unfold Transform._processTags. by rewrite fold_manifestKeys. Qed.

Lemma tagged_nil nm tags : tagged nm tags = [] ↔ ¬ ∃ x, x ∈ tags ∧ tag x = nm.
Proof.
  unfold tagged. split.
  - intros Hnil (x & Hx & Hnm).
    assert (x ∈ base.filter (λ y, tag y = nm) tags) as Hin
      by (by apply list_elem_of_filter).
    rewrite Hnil in Hin. by apply elem_of_nil in Hin.
  - intros Hno. destruct (base.filter _ tags) as [|x l] eqn:E; [done|].
    exfalso. apply Hno. exists x.
    assert (x ∈ base.filter (λ y, tag y = nm) tags) as Hin
      by (rewrite E; apply list_elem_of_here).
    apply list_elem_of_filter in Hin as [? ?]. done.
Qed.

Lemma tagged_last nm tags x :
  last (tagged nm tags) = Some x → x ∈ tags ∧ tag x = nm.
Proof.
  intros [l Hl]%last_Some.
  assert (x ∈ tagged nm tags) as Hin.
  { rewrite Hl. apply elem_of_app. right. apply list_elem_of_here. }
  apply list_elem_of_filter in Hin as [? ?]. done.
Qed.

(** X3: the two flags are [true] exactly when a tag of their name occurs,
    and are absent otherwise; neither is ever [false]. *)
Theorem X3_flags_set_iff_tag_occurs tags :
  (platformAppsOnly (Transform._processTags tags) =
     if decide (Exists (λ x, tag x = "chrome-platform-apps") tags)
     then Some true else None)
  ∧ (disallowServiceWorkers (Transform._processTags tags) =
     if decide (Exists (λ x, tag x = "chrome-disallow-service-workers") tags)
     then Some true else None).
Proof.
  unfold Transform._processTags. split.
  - rewrite (fold_last_wins platformAppsOnly "chrome-platform-apps"
               (λ _, Some true)) by step_cases.
    destruct (last _) eqn:E; simpl.
    + rewrite decide_True; [done|]. apply Exists_exists.
      apply tagged_last in E. by eexists.
    + apply last_None, tagged_nil in E. rewrite decide_False; [done|].
      by rewrite Exists_exists.
  - rewrite (fold_last_wins disallowServiceWorkers
               "chrome-disallow-service-workers" (λ _, Some true))
      by step_cases.
    destruct (last _) eqn:E; simpl.
    + rewrite decide_True; [done|]. apply Exists_exists.
      apply tagged_last in E. by eexists.
    + apply last_None, tagged_nil in E. rewrite decide_False; [done|].
      by rewrite Exists_exists.
Qed.

(** The deprecation record after the tags, from the record [d] before:
    each of its two properties is the trimmed text of the last tag that
    writes it. *)
Lemma processTag_deprecated out d x :
  (tag x = "deprecated" →
     (Transform.processTag (out, d) x).2
     = {| value := JsString.trim (text x);
          deprecated_since := deprecated_since d |}
     ∧ deprecated (Transform.processTag (out, d) x).1
       = Some (Transform.processTag (out, d) x).2)
  ∧ (tag x = "chrome-deprecated-since" →
     (Transform.processTag (out, d) x).2
     = {| value := value d;
          deprecated_since := Some (JsString.trim (text x)) |}
     ∧ deprecated (Transform.processTag (out, d) x).1
       = Some (Transform.processTag (out, d) x).2)
  ∧ (tag x ≠ "deprecated" → tag x ≠ "chrome-deprecated-since" →
     (Transform.processTag (out, d) x).2 = d
     ∧ deprecated (Transform.processTag (out, d) x).1 = deprecated out).
Proof.
  unfold Transform.processTag.
  repeat case_bool_decide; simpl; repeat split; intros; simpl;
    try done; congruence.
Qed.

Lemma fold_deprecated tags out d :
  (fold_left Transform.processTag tags (out, d)).2
  = {| value :=
         match last (tagged "deprecated" tags) with
         | Some x => JsString.trim (text x)
         | None => value d
         end;
       deprecated_since :=
         match last (tagged "chrome-deprecated-since" tags) with
         | Some x => Some (JsString.trim (text x))
         | None => deprecated_since d
         end |}
  ∧ deprecated (fold_left Transform.processTag tags (out, d)).1
    = match tagged "deprecated" tags,
            tagged "chrome-deprecated-since" tags with
      | [], [] => deprecated out
      | _, _ => Some (fold_left Transform.processTag tags (out, d)).2
      end.
Proof.
  revert out d. induction tags as [|x tags IH]; intros out d.
  { simpl. by destruct d. }
  change (fold_left Transform.processTag (x :: tags) (out, d))
    with (fold_left Transform.processTag tags (Transform.processTag (out, d) x)).
  destruct (Transform.processTag (out, d) x) as [out1 d1] eqn:E.
  destruct (IH out1 d1) as [IH1 IH2].
  pose proof (processTag_deprecated out d x) as (H1 & H2 & H3).
  rewrite E in H1, H2, H3. simpl in H1, H2, H3.
  unfold tagged in *. rewrite !filter_cons.
  destruct (decide (tag x = "deprecated")) as [Hd|Hd].
  - destruct (H1 Hd) as [-> Hout]. rewrite decide_False by congruence.
    rewrite last_cons. split.
    + rewrite IH1. simpl. by destruct (last _).
    + rewrite IH2. simpl in *.
      destruct (base.filter (λ y, tag y = "deprecated") tags),
        (base.filter (λ y, tag y = "chrome-deprecated-since") tags);
        try done.
      by rewrite Hout, IH1.
  - destruct (decide (tag x = "chrome-deprecated-since")) as [Hs|Hs].
    + destruct (H2 Hs) as [-> Hout]. rewrite last_cons. split.
      * rewrite IH1. simpl.
        by destruct (last (base.filter (λ y, tag y = "chrome-deprecated-since") tags)).
      * rewrite IH2. simpl in *.
        destruct (base.filter (λ y, tag y = "deprecated") tags),
          (base.filter (λ y, tag y = "chrome-deprecated-since") tags);
          try done.
        by rewrite Hout, IH1.
    + destruct (H3 Hd Hs) as [-> Hout]. split; [done|].
      rewrite IH2.
      destruct (base.filter (λ y, tag y = "deprecated") tags),
        (base.filter (λ y, tag y = "chrome-deprecated-since") tags);
        done.
Qed.

(** X4: [deprecated] is there exactly when a [deprecated] or a
    [chrome-deprecated-since] tag occurs. The two tags write into one
    shared record: its [value] is the trimmed text of the last
    [deprecated] tag, the empty string without one, and its [since] is the
    trimmed text of the last [chrome-deprecated-since] tag, absent without
    one. *)
Theorem X4_deprecated_shared_record tags :
  deprecated (Transform._processTags tags) =
  match tagged "deprecated" tags, tagged "chrome-deprecated-since" tags with
  | [], [] => None
  | _, _ =>
      Some {| value :=
                from_option (JsString.trim ∘ text) ""
                  (last (tagged "deprecated" tags));
              deprecated_since :=
                JsString.trim ∘ text
                  <$> last (tagged "chrome-deprecated-since" tags) |}
  end.
Proof.
  unfold Transform._processTags.
  match goal with
  | |- context [fold_left Transform.processTag tags (?o, ?d)] =>
      destruct (fold_deprecated tags o d) as [H1 H2]
  end.
  rewrite H2, H1. simpl.
  destruct (tagged "deprecated" tags) eqn:E1,
    (tagged "chrome-deprecated-since" tags) eqn:E2; try done;
    simpl; by repeat destruct (last _).
Qed.

Lemma processTag_unrecognized acc x :
  tag x ∉ recognizedTags → Transform.processTag acc x = acc.
Proof.
  intros Hno. destruct acc as [out d]. unfold Transform.processTag.
  repeat case_bool_decide; try done;
    exfalso; apply Hno; unfold recognizedTags; set_solver.
Qed.

Lemma fold_recognized tags acc :
  fold_left Transform.processTag
    (base.filter (λ x, tag x ∈ recognizedTags) tags) acc
  = fold_left Transform.processTag tags acc.
Proof.
  revert acc. induction tags as [|x tags IH]; intros acc; [done|].
  rewrite filter_cons. destruct (decide (tag x ∈ recognizedTags)); simpl.
  - apply IH.
  - by rewrite (processTag_unrecognized acc x), IH.
Qed.

(** X5: tags with a name that has no case in the switch are ignored:
    dropping them from the sequence, wherever they stand, gives the same
    [FeatureInfo]. *)
Theorem X5_unrecognized_tags_ignored tags :
  Transform._processTags (base.filter (λ x, tag x ∈ recognizedTags) tags)
  = Transform._processTags tags.
Proof. unfold Transform._processTags. by rewrite fold_recognized. Qed.

End MoreTags.

(** ** More about the names [visit] computes *)

Section MoreNames.

Lemma append_assoc (a b c : string) : (a +:+ b) +:+ c = a +:+ (b +:+ c).
Proof.
  induction a as [|x a IH]; [reflexivity|].
  change ((String x a +:+ b) +:+ c) with (String x ((a +:+ b) +:+ c)).
  change (String x a +:+ b +:+ c) with (String x (a +:+ b +:+ c)).
  by rewrite IH.
Qed.

Lemma concat_snoc sep (l : list string) (x : string) :
  String.concat sep (l ++ [x]) =
  match l with
  | [] => x
  | _ => String.concat sep l +:+ sep +:+ x
  end.
Proof.
  induction l as [|a l IH]; [done|].
  destruct l as [|b l]; [done|].
  change (String.concat sep ((a :: b :: l) ++ [x]))
    with (a +:+ sep +:+ String.concat sep ((b :: l) ++ [x])).
  rewrite IH.
  change (String.concat sep (a :: b :: l))
    with (a +:+ sep +:+ String.concat sep (b :: l)).
  by rewrite !append_assoc.
Qed.

Lemma concat_empty sep (l : list string) :
  Forall (λ x, x ≠ "") l → String.concat sep l = "" → l = [].
Proof.
  intros Hne. destruct Hne as [|x l Hx _]; [done|].
  destruct x as [|ch x]; [done|]. by destruct l.
Qed.

(** X6: the name of a node extends the name of its parent. Below a parent
    of kind Project the parent's own name is left out; otherwise a node
    with an empty name has its parent's name, and a node with a name has
    the parent's name, a dot and its own name, or its own name alone when
    the parent's name is empty. *)
Theorem X6_name_extends_parent {C D} (ps : list (DeclarationReflection C))
    (p : DeclarationReflection C) (n : DeclarationReflection D) :
  Transform.fqdn (ps ++ [p]) n =
  if decide (kindString p = Some "Project") then Transform.fqdn ps n
  else if decide (name n = "") then Transform.fqdn ps p
  else if decide (Transform.fqdn ps p = "") then name n
  else Transform.fqdn ps p +:+ "." +:+ name n.
Proof.
  unfold Transform.fqdn, JsString.join.
  rewrite (filter_app _ ps [p]), fmap_app, (filter_cons _ p), filter_nil.
  destruct (decide (kindString p = Some "Project")) as [Hp|Hp].
  { rewrite decide_False by (by intros ?). by rewrite app_nil_r. }
  rewrite decide_True by done. rewrite !fmap_cons, fmap_nil.
  set (A := name <$> base.filter _ ps).
  rewrite (filter_app _ (A ++ [name p]) [name n]).
  rewrite (filter_cons _ (name n)), filter_nil.
  destruct (decide (name n = "")) as [Hn|Hn].
  { rewrite decide_False by (by intros ?). by rewrite app_nil_r. }
  rewrite decide_True by done. rewrite concat_snoc.
  destruct (base.filter (λ x, x ≠ "") (A ++ [name p])) as [|a L] eqn:E.
  { by rewrite decide_True. }
  rewrite decide_False; [done|].
  intros Hempty. apply concat_empty in Hempty; [done|].
  rewrite <- E. apply Forall_forall. intros x Hx.
  by apply list_elem_of_filter in Hx as [? _].
Qed.

End MoreNames.

(** ** More about the walk *)

Section MoreWalk.
Implicit Types (t s c : tree) (p q r : loc) (m : gmap string loc) (σ : State).

Lemma annotated_source {C} fq (n n1 : DeclarationReflection C) :
  annotated fq n = inr n1 →
  name n1 = name n ∧ kindString n1 = kindString n ∧ flags n1 = flags n
  ∧ comment n1 = comment n ∧ type n1 = type n.
Proof.
  unfold annotated. destruct (event_of (type n)) as [e|[ev|]]; [done| |];
    intros [= <-]; done.
Qed.

Lemma pruned_source q s (n : node) :
  name (pruned q s n) = name n ∧ kindString (pruned q s n) = kindString n
  ∧ flags (pruned q s n) = flags n ∧ comment (pruned q s n) = comment n
  ∧ type (pruned q s n) = type n.
Proof. unfold pruned. by destruct (children (fields s)). Qed.

(** X7: the walk neither makes nor removes objects, and it writes none of
    the properties typedoc gave them except [children]: when the
    transformer returns, the store holds an object exactly at the positions
    of the input, and [name], [kindString], [flags], [comment] and [type]
    of each are as in the input, for the pruned nodes as for the rest. *)
Theorem X7_source_properties_kept t m σ q :
  transform t = Ok m σ →
  match subtree t q with
  | Some s =>
      ∃ n, heap σ !! q = Some n
           ∧ name n = name (fields s)
           ∧ kindString n = kindString (fields s)
           ∧ flags n = flags (fields s)
           ∧ comment n = comment (fields s)
           ∧ type n = type (fields s)
  | None => heap σ !! q = None
  end.
Proof.
  intros Ht. destruct (subtree t q) as [s|] eqn:Hs.
  - destruct (reached t q) as [s'|] eqn:Hr.
    + pose proof (reached_subtree t q s' Hr) as Hs'.
      assert (s' = s) as -> by congruence.
      pose proof (transform_final t m σ q s Ht Hr) as Hfin.
      unfold final_object in Hfin. destruct (skipped s).
      * eexists. split; [done|]. apply pruned_source.
      * destruct Hfin as (n1 & Han & Hq). eexists. split; [done|].
        apply annotated_source in Han as (H1 & H2 & H3 & H4 & H5).
        destruct (pruned_source q s n1) as (P1 & P2 & P3 & P4 & P5).
        rewrite P1, P2, P3, P4, P5, H1, H2, H3, H4, H5. done.
    + exists (object_at q s). split; [|done].
      by rewrite (transform_frame t m σ q Ht Hr), load_lookup, Hs.
  - destruct (reached t q) as [s'|] eqn:Hr.
    + apply reached_subtree in Hr. congruence.
    + by rewrite (transform_frame t m σ q Ht Hr), load_lookup, Hs.
Qed.

(** X7 at the pruned function [_hidden] of [project1]. *)
Lemma X7_witness :
  transform Examples.project1 = Ok {[ "chrome.tabs" := [0; 0] ]} Examples.state1
  ∧ ∃ n, heap Examples.state1 !! [0; 0; 1] = Some n
         ∧ name n = "_hidden"
         ∧ kindString n = Some "Function"
         ∧ flags n = None ∧ comment n = None ∧ type n = None.
Proof.
  assert (transform Examples.project1
          = Ok {[ "chrome.tabs" := [0; 0] ]} Examples.state1) as H
    by (vm_compute; reflexivity).
  split; [exact H|].
  exact (X7_source_properties_kept Examples.project1 _ _ [0; 0; 1] H).
Defined.

Lemma sublist_fmap {A B} (f : A → B) (l1 l2 : list A) :
  l1 `sublist_of` l2 → f <$> l1 `sublist_of` f <$> l2.
Proof.
  induction 1 as [|x l1 l2 _ IH|x l1 l2 _ IH]; [constructor| |].
  - rewrite !fmap_cons. by constructor.
  - rewrite fmap_cons. by constructor.
Qed.

(** X8: the walk leaves a node without [children] without them, and
    replaces a [children] array by the children that pass [filter], in the
    order they had. *)
Theorem X8_children_filtered_in_order t m σ q s :
  transform t = Ok m σ → reached t q = Some s →
  ∃ n, heap σ !! q = Some n
       ∧ match children (fields s) with
         | None => children n = None
         | Some cs =>
             ∃ cs', children n = Some cs'
                    ∧ cs' `sublist_of` child_locs q cs
                    ∧ ∀ i c, cs !! i = Some c →
                             (q ++ [i] ∈ cs' ↔
                              Transform.filter (fields c) = true)
         end.
Proof.
  intros Ht Hr. pose proof (transform_final t m σ q s Ht Hr) as Hfin.
  assert (∃ n, heap σ !! q = Some n) as [n Hn].
  { unfold final_object in Hfin. destruct (skipped s); [by eexists|].
    destruct Hfin as (n1 & _ & ->). by eexists. }
  rewrite Hn in Hfin. apply final_children in Hfin.
  exists n. split; [done|].
  destruct (children (fields s)) as [cs|] eqn:Hcs; [|done].
  assert (subtrees s = cs) as Hsub by (unfold subtrees; by rewrite Hcs).
  eexists. split; [done|]. split.
  - rewrite <- Hsub, child_locs_eq. apply sublist_fmap.
    unfold kept. apply sublist_filter.
  - intros i c Hi. rewrite <- Hsub in Hi. split.
    + intros ([j c'] & Heq & Hin)%list_elem_of_fmap. simpl in Heq.
      apply app_inv_head in Heq. injection Heq as <-.
      apply kept_lookup in Hin as [Hi' Hf]. congruence.
    + intros Hf. apply (list_elem_of_fmap_2' _ _ (i, c)); [|done].
      by apply kept_lookup.
Qed.

(** X8 at the namespace [tabs] of [project1]. *)
Lemma X8_witness :
  transform Examples.project1 = Ok {[ "chrome.tabs" := [0; 0] ]} Examples.state1
  ∧ ∃ n, heap Examples.state1 !! [0; 0] = Some n
         ∧ ∃ cs', children n = Some cs'
                  ∧ cs' `sublist_of` [[0; 0; 0]; [0; 0; 1]]
                  ∧ ∀ i c,
                      [ Examples.decl "Tab" "Interface" None;
                        Examples.decl "_hidden" "Function" None ] !! i = Some c →
                      ([0; 0] ++ [i] ∈ cs' ↔ Transform.filter (fields c) = true).
Proof.
  assert (transform Examples.project1
          = Ok {[ "chrome.tabs" := [0; 0] ]} Examples.state1) as H
    by (vm_compute; reflexivity).
  split; [exact H|].
  exact (X8_children_filtered_in_order Examples.project1 _ _ [0; 0]
           (Examples.decl "tabs" "Namespace"
              (Some [ Examples.decl "Tab" "Interface" None;
                      Examples.decl "_hidden" "Function" None ]))
           H eq_refl).
Defined.

(** X9: every entry of the mapping holds an object of the tree the
    transformer leaves, of kind Namespace, whose [_name] is the key of the
    entry and that has a [_feature]. *)
Theorem X9_entry_key_is_name t m σ k q :
  transform t = Ok m σ → m !! k = Some q →
  in_tree (heap σ) [] q
  ∧ ∃ n, heap σ !! q = Some n
         ∧ kindString n = Some "Namespace"
         ∧ _name n = Some k
         ∧ is_Some (_feature n).
Proof.
  intros Ht Hk.
  destruct (transform_sound t m σ k q Ht Hk) as (s & Hr & Hreg & ->).
  split; [apply (in_tree_reached t m σ q Ht); by eexists|].
  pose proof (transform_final t m σ q s Ht Hr) as Hfin.
  unfold final_object in Hfin.
  destruct (skipped s) eqn:Hsk.
  { apply skipped_registered in Hsk. congruence. }
  destruct Hfin as (n1 & Han & Hq). eexists. split; [done|].
  destruct (annotated_source _ _ _ Han) as (_ & Hkind & _).
  destruct (annotated_inr _ _ _ Han) as (_ & _ & Hname & Hfeat).
  apply registered_iff in Hreg as [Hns _].
  unfold pruned. destruct (children (fields s)); simpl;
    rewrite ?Hkind, ?Hname, ?Hfeat; by eauto.
Qed.

(** X9 at the one entry of the mapping of [project1]. *)
Lemma X9_witness :
  transform Examples.project1 = Ok {[ "chrome.tabs" := [0; 0] ]} Examples.state1
  ∧ in_tree (heap Examples.state1) [] [0; 0]
  ∧ ∃ n, heap Examples.state1 !! [0; 0] = Some n
         ∧ kindString n = Some "Namespace"
         ∧ _name n = Some "chrome.tabs"
         ∧ is_Some (_feature n).
Proof.
  assert (transform Examples.project1
          = Ok {[ "chrome.tabs" := [0; 0] ]} Examples.state1) as H
    by (vm_compute; reflexivity).
  split; [exact H|].
  apply (X9_entry_key_is_name Examples.project1 _ _ "chrome.tabs" [0; 0] H).
  reflexivity.
Defined.

(** X10: [_event] is written on no node whose type is not a reference to
    one of the three event types: when the transformer returns, [_event] of
    such a node is as the input had it. *)
Theorem X10_event_only_on_event_references t m σ q s :
  transform t = Ok m σ → subtree t q = Some s →
  (∀ ty, type (fields s) = Some ty →
         ¬ (Ty.type ty = "reference"
            ∧ Ty.name ty ∈ Some <$> Transform.chromeEventRefTypes)) →
  ∃ n, heap σ !! q = Some n ∧ _event n = _event (fields s).
Proof.
  intros Ht Hs Hno.
  assert (event_of (type (fields s)) = inr None) as Hev.
  { unfold event_of. destruct (type (fields s)) as [ty|]; [|done].
    specialize (Hno ty eq_refl).
    destruct (bool_decide (Ty.type ty = "reference")) eqn:H1; [|done].
    destruct (bool_decide (Ty.name ty ∈ _)) eqn:H2; [|done].
    apply bool_decide_eq_true in H1, H2. by destruct Hno. }
  destruct (reached t q) as [s'|] eqn:Hr.
  - pose proof (reached_subtree t q s' Hr) as Hs'.
    assert (s' = s) as -> by congruence.
    destruct (skipped s) eqn:Hsk.
    + destruct (unvisited_object t m σ q s Ht Hs) as (n & Hn & _ & _ & He & _);
        [by right|]. by exists n.
    + destruct (visited_event t m σ q s Ht Hr Hsk) as (n & ev & Hn & Hev' & He).
      exists n. split; [done|]. rewrite Hev in Hev'. by injection Hev' as <-.
  - destruct (unvisited_object t m σ q s Ht Hs) as (n & Hn & _ & _ & He & _);
      [by left|]. by exists n.
Qed.

(** X10 at the interface [Tab] of [project1], which has no type. *)
Lemma X10_witness :
  transform Examples.project1 = Ok {[ "chrome.tabs" := [0; 0] ]} Examples.state1
  ∧ ∃ n, heap Examples.state1 !! [0; 0; 0] = Some n ∧ _event n = None.
Proof.
  assert (transform Examples.project1
          = Ok {[ "chrome.tabs" := [0; 0] ]} Examples.state1) as H
    by (vm_compute; reflexivity).
  split; [exact H|].
  apply (X10_event_only_on_event_references Examples.project1 _ _ [0; 0; 0]
           (Examples.decl "Tab" "Interface" None) H eq_refl).
  intros ty Hty. discriminate.
Defined.

Lemma event_of_error ty e :
  event_of (Some ty) = inl e →
  Ty.type ty = "reference"
  ∧ Ty.name ty ∈ Some <$> Transform.chromeEventRefTypes
  ∧ match e with
    | ReferenceWithoutArgument nm =>
        nm = Ty.name ty ∧ Transform.first (Ty.typeArguments ty) = None
    | UnexpectedFirstArgument a =>
        Transform.first (Ty.typeArguments ty) = Some a
        ∧ Ty.name ty ≠ Some "CustomChromeEvent"
        ∧ Ty.type a = "intrinsic"
        ∧ Ty.name a ≠ Some "never"
    end.
Proof.
  unfold event_of, Transform.parameters.
  destruct (bool_decide (Ty.type ty = "reference")) eqn:H1; [|done].
  destruct (bool_decide (Ty.name ty ∈ _)) eqn:H2; [|done].
  apply bool_decide_eq_true in H1, H2. simpl.
  destruct (Transform.first (Ty.typeArguments ty)) as [a|].
  2:{ intros [= <-]. done. }
  repeat case_bool_decide; try done.
  intros [= <-]. done.
Qed.

(** X11: an error the transformer throws tells its cause. When it says a
    reference is without argument, the walk reached a node whose type is a
    reference to one of the three event types, of the name the error
    carries, that has no first type argument; when it says a first argument
    is unexpected, the walk reached a node whose type is such a reference,
    not named [CustomChromeEvent], whose first type argument is the one the
    error carries, an intrinsic type not named [never]. *)
Theorem X11_error_tells_its_cause t e :
  transform t = Throw e →
  ∃ q s ty,
    reached t q = Some s ∧ type (fields s) = Some ty
    ∧ Ty.type ty = "reference"
    ∧ Ty.name ty ∈ Some <$> Transform.chromeEventRefTypes
    ∧ match e with
      | ReferenceWithoutArgument nm =>
          nm = Ty.name ty ∧ Transform.first (Ty.typeArguments ty) = None
      | UnexpectedFirstArgument a =>
          Transform.first (Ty.typeArguments ty) = Some a
          ∧ Ty.name ty ≠ Some "CustomChromeEvent"
          ∧ Ty.type a = "intrinsic"
          ∧ Ty.name a ≠ Some "never"
      end.
Proof.
  intros Ht. apply transform_throws in Ht as (q & s & Hr & _ & He).
  destruct (type (fields s)) as [ty|] eqn:Hty; [|done].
  exists q, s, ty. split; [done|]. split; [done|].
  by apply event_of_error.
Qed.

(** X11 on [project11]. *)
Lemma X11_witness :
  transform Examples.project11 = Throw (ReferenceWithoutArgument (Some "Event"))
  ∧ ∃ q s ty,
      reached Examples.project11 q = Some s ∧ type (fields s) = Some ty
      ∧ Ty.type ty = "reference"
      ∧ Ty.name ty ∈ Some <$> Transform.chromeEventRefTypes
      ∧ Some "Event" = Ty.name ty
      ∧ Transform.first (Ty.typeArguments ty) = None.
Proof.
  assert (transform Examples.project11
          = Throw (ReferenceWithoutArgument (Some "Event"))) as H
    by (vm_compute; reflexivity).
  split; [exact H|].
  exact (X11_error_tells_its_cause Examples.project11 _ H).
Defined.

(** X12: a reference named [CustomChromeEvent] with a first type argument
    never makes [visit] throw, whatever the argument is: when the argument
    carries no call signature, [_event] of a node the walk reached, not a
    namespace without a child of another kind, is an object without
    [addListenerParameters]. *)
Theorem X12_custom_event_without_signature t m σ q s ty a :
  transform t = Ok m σ →
  reached t q = Some s → skipped s = false →
  type (fields s) = Some ty →
  Ty.type ty = "reference" →
  Ty.name ty = Some "CustomChromeEvent" →
  Transform.first (Ty.typeArguments ty) = Some a →
  Transform.first (Ty.declaration a ≫= Ty.signatures) = None →
  ∃ n, heap σ !! q = Some n
       ∧ _event n = Some {| addListenerParameters := None |}.
Proof.
  intros Ht Hr Hsk Hty Href Hname Ha Hsig.
  destruct (visited_event t m σ q s Ht Hr Hsk) as (n & ev & Hn & Hev & He).
  exists n. split; [done|]. rewrite He. clear He.
  rewrite Hty in Hev. unfold event_of, Transform.parameters in Hev.
  rewrite Ha in Hev.
  rewrite (bool_decide_true _ Href) in Hev.
  rewrite bool_decide_true in Hev
    by (rewrite Hname; unfold Transform.chromeEventRefTypes; set_solver).
  rewrite (bool_decide_true _ Hname) in Hev.
  rewrite Hsig in Hev. simpl in Hev. by injection Hev as <-.
Qed.

(** X12 at the member of [project3], of type [CustomChromeEvent<string>]. *)
Lemma X12_witness :
  transform Examples.project3 = Ok ∅ Examples.state3
  ∧ ∃ n, heap Examples.state3 !! [0] = Some n
         ∧ _event n = Some {| addListenerParameters := None |}.
Proof.
  assert (transform Examples.project3 = Ok ∅ Examples.state3) as H
    by (vm_compute; reflexivity).
  split; [exact H|].
  apply (X12_custom_event_without_signature Examples.project3 ∅ Examples.state3
           [0]
           (Examples.member "onFoo"
              (Examples.reference "CustomChromeEvent" [Examples.intrinsic "string"]))
           (Examples.reference "CustomChromeEvent" [Examples.intrinsic "string"])
           (Examples.intrinsic "string") H);
    reflexivity.
Defined.

(** X13: [filter] and the exclusion of Project names bear on the nodes
    below the root only. The root is visited whatever its flags and its
    name, and unless it is a namespace without a child of another kind its
    [_name] is its own name, also when it is of kind Project. *)
Theorem X13_root_named_by_itself t m σ :
  transform t = Ok m σ → skipped t = false →
  in_tree (heap σ) [] []
  ∧ ∃ n, heap σ !! [] = Some n ∧ _name n = Some (name (fields t)).
Proof.
  intros Ht Hsk. split; [constructor|].
  pose proof (transform_final t m σ [] t Ht eq_refl) as Hfin.
  unfold final_object in Hfin. rewrite Hsk in Hfin.
  destruct Hfin as (n1 & Han & Hq). eexists. split; [done|].
  apply annotated_inr in Han as (_ & _ & Hname & _).
  assert (_name (pruned [] t n1) = _name n1) as ->
    by (unfold pruned; by destruct (children (fields t))).
  rewrite Hname. f_equal. unfold fullName, Transform.fqdn. simpl.
  rewrite filter_cons, filter_nil.
  destruct (decide (name (fields t) ≠ "")) as [Hne|Hne]; [done|].
  apply dec_stable in Hne. by rewrite Hne.
Qed.

(** X13 on [project1], whose root is of kind Project. *)
Lemma X13_witness :
  transform Examples.project1 = Ok {[ "chrome.tabs" := [0; 0] ]} Examples.state1
  ∧ ∃ n, heap Examples.state1 !! [] = Some n ∧ _name n = Some "proj".
Proof.
  assert (transform Examples.project1
          = Ok {[ "chrome.tabs" := [0; 0] ]} Examples.state1) as H
    by (vm_compute; reflexivity).
  split; [exact H|].
  exact (proj2 (X13_root_named_by_itself Examples.project1 _ _ H eq_refl)).
Defined.

Lemma subtree_app t q r :
  subtree t (q ++ r) = subtree t q ≫= λ s, subtree s r.
Proof.
  revert t. induction q as [|i q IH]; intros t; simpl; [done|].
  destruct (subtrees t !! i); [apply IH|done].
Qed.

Lemma reached_app_None t q r : reached t q = None → reached t (q ++ r) = None.
Proof.
  revert t. induction q as [|i q IH]; intros t; simpl; [done|].
  destruct (subtrees t !! i) as [c|]; [|done].
  destruct (Transform.filter (fields c)); [apply IH|done].
Qed.

(** X14: the walk does not go below a node it prunes. When the transformer
    returns, every object below a private or underscore-prefixed node, at
    any depth and whatever its own flags and name, is as the input had it,
    is not in the tree the transformer leaves and is held by no entry of
    the mapping. *)
Theorem X14_nothing_below_a_pruned_node t m σ q s0 r s :
  transform t = Ok m σ →
  q ≠ [] → subtree t q = Some s0 →
  Transform.filter (fields s0) = false →
  subtree s0 r = Some s →
  heap σ !! (q ++ r) = Some (object_at (q ++ r) s)
  ∧ ¬ in_tree (heap σ) [] (q ++ r)
  ∧ ∀ k, m !! k ≠ Some (q ++ r).
Proof.
  intros Ht Hne Hs0 Hf Hs.
  pose proof (filtered_unreached t q s0 Hne Hs0 Hf) as Hq.
  pose proof (reached_app_None t q r Hq) as Hr.
  split; [|split].
  - rewrite (transform_frame t m σ _ Ht Hr), load_lookup, subtree_app, Hs0.
    simpl. by rewrite Hs.
  - intros Hin. apply (in_tree_reached t m σ _ Ht) in Hin as [s' Hs'].
    congruence.
  - intros k Hk.
    destruct (transform_sound t m σ k _ Ht Hk) as (s' & Hs' & _). congruence.
Qed.

(** X14 at the function [x] below the namespace [_internal] of
    [project1]. *)
Lemma X14_witness :
  transform Examples.project1 = Ok {[ "chrome.tabs" := [0; 0] ]} Examples.state1
  ∧ heap Examples.state1 !! [0; 1; 0]
    = Some (object_at [0; 1; 0] (Examples.decl "x" "Function" None))
  ∧ ¬ in_tree (heap Examples.state1) [] [0; 1; 0]
  ∧ ∀ k, ({[ "chrome.tabs" := [0; 0] ]} : gmap string loc) !! k ≠ Some [0; 1; 0].
Proof.
  assert (transform Examples.project1
          = Ok {[ "chrome.tabs" := [0; 0] ]} Examples.state1) as H
    by (vm_compute; reflexivity).
  split; [exact H|].
  apply (X14_nothing_below_a_pruned_node Examples.project1 _ _ [0; 1]
           (Examples.decl "_internal" "Namespace"
              (Some [ Examples.decl "x" "Function" None ]))
           [0] (Examples.decl "x" "Function" None) H).
  - discriminate.
  - reflexivity.
  - reflexivity.
  - reflexivity.
Defined.

End MoreWalk.

(** ** The order of the walk *)

Section Order.
Implicit Types (t s c : tree) (p q r : loc) (h : gmap loc node)
  (m : gmap string loc) (ks : list (option string * string))
  (vs : list (loc * tree * string)).

Lemma visits_children ks p (f : nat → nat) (cs : list tree) k :
  (∀ i, f i = k + i) →
  (fix go (i : nat) (cs : list tree) : list (loc * tree * string) :=
     match cs with
     | [] => []
     | c :: cs' =>
         (if Transform.filter (fields c) then visits ks (p ++ [i]) c else [])
         ++ go (S i) cs'
     end) k cs
  = visits_of ks p
      (base.filter (λ ic, Transform.filter (fields ic.2) = true)
         (imap (λ i c, (f i, c)) cs)).
Proof.
  revert f k. induction cs as [|c cs IH]; intros f k Hf; [done|].
  rewrite imap_cons, filter_cons. simpl.
  rewrite (IH (f ∘ S) (S k)) by (intros i; simpl; rewrite Hf; lia).
  rewrite Hf, Nat.add_0_r.
  destruct (Transform.filter (fields c)); simpl; [|done].
  unfold visits_of. by rewrite fmap_cons.
Qed.

Lemma visits_eq ks p t :
  visits ks p t =
  (p, t, fqdn_keys ks (name (fields t)))
  :: visits_of (ks ++ [key (fields t)]) p (kept t).
Proof.
  destruct t as [n]. unfold kept, ichildren, subtrees. simpl. f_equal.
  destruct (children n) as [cs|]; [|done]. simpl.
  by apply (visits_children _ p id).
Qed.

Lemma first_error_app vs1 vs2 :
  first_error (vs1 ++ vs2) =
  match first_error vs1 with
  | Some e => Some e
  | None => first_error vs2
  end.
Proof.
  induction vs1 as [|v vs1 IH]; [done|]. simpl.
  by destruct (visit_error v.1.2).
Qed.

Lemma exact_cons v vs m res :
  visit_error v.1.2 = None →
  exact_outcome vs (assign m v) res → exact_outcome (v :: vs) m res.
Proof.
  intros Hv. destruct res as [[] s'|e| |]; simpl; rewrite ?Hv; done.
Qed.

Lemma exact_app vs1 vs2 m res :
  first_error vs1 = None →
  exact_outcome vs2 (foldl assign m vs1) res →
  exact_outcome (vs1 ++ vs2) m res.
Proof.
  intros Hv. destruct res as [[] s'|e| |]; simpl;
    rewrite ?first_error_app, ?foldl_app, ?Hv; done.
Qed.

Lemma loop_exact fuel ks p parents :
  exact_spec fuel →
  ∀ (ics : list (nat * tree)) h m,
    NoDup ics.*1 →
    (∀ i c, (i, c) ∈ ics → (height c ≤ fuel)%nat ∧ stored h (p ++ [i]) c) →
    parents_in h parents ks →
    (∀ l i r, l ∈ parents → l ≠ p ++ i :: r) →
    exact_outcome (visits_of ks p ics) m
      (forM_ (λ l, Transform.walk fuel l parents)
             ((λ ic, p ++ [ic.1]) <$> ics)
             {| heap := h; namespaces := m |}).
Proof.
  intros Hx ics.
  induction ics as [|[i c] ics IH]; intros h m Hnd Hics Hps Hout; [done|].
  rewrite fmap_cons in Hnd. apply NoDup_cons in Hnd as [Hi Hnd].
  destruct (Hics i c) as [Hhc Hstc]; [apply elem_of_cons; by left|].
  assert (∀ l r, l ∈ parents → l ≠ (p ++ [i]) ++ r) as Hout'.
  { intros l r Hl. rewrite app_cons_eq. by apply Hout. }
  pose proof (walk_correct fuel c (p ++ [i]) parents ks h m Hhc Hstc Hps Hout')
    as Hw.
  pose proof (Hx c (p ++ [i]) parents ks h m Hhc Hstc Hps Hout') as Hxc.
  unfold visits_of. rewrite !fmap_cons. simpl. unfold bind.
  fold (visits_of ks p ics).
  destruct (Transform.walk fuel (p ++ [i]) parents _) as [[] [h1 m1]|e| |];
    simpl in Hw, Hxc; try done.
  2:{ simpl. by rewrite first_error_app, Hxc. }
  destruct Hxc as [Hnone ->]. apply exact_app; [done|].
  destruct Hw as [_ Wfr _ _ _].
  assert (∀ l, l ∈ parents → h1 !! l = h !! l) as Hpar.
  { intros l Hl. apply Wfr. intros r' Heq. by apply Hout' in Heq. }
  apply IH; [done| |by apply (parents_in_frame h)|done].
  intros j c' Hj.
  destruct (Hics j c') as [Hh Hs]; [apply elem_of_cons; by right|].
  split; [done|]. intros r s Hr.
  rewrite app_cons_eq, Wfr, <- app_cons_eq; [by apply Hs|].
  intros r' Heq. rewrite app_cons_eq in Heq.
  apply app_cons_inj in Heq as [-> _].
  exfalso. apply Hi. by apply (list_elem_of_fmap_2' fst _ (i, c')).
Qed.

Lemma after_exact fuel ks p parents t h m n1 :
  exact_spec fuel →
  (height t ≤ S fuel)%nat → stored h p t → parents_in h parents ks →
  (∀ l r, l ∈ parents → l ≠ p ++ r) →
  children n1 = children (object_at p t) → key n1 = key (fields t) →
  exact_outcome (visits_of (ks ++ [key (fields t)]) p (kept t)) m
    ((let! n := deref p in
      match children n with
      | None => ret tt
      | Some cs =>
          let! children :=
            filterM (λ l, let! x := deref l in ret (Transform.filter x)) cs in
          let! _ := forM_ (λ l, Transform.walk fuel l (parents ++ [p])) children in
          update p (set_children (Some children))
      end) {| heap := <[p := n1]> h; namespaces := m |}).
Proof.
  intros Hx Hh Hst Hps Hout Hch Hkey.
  pose proof (after_visit fuel ks p parents t h m n1 (walk_correct fuel)
                Hh Hst Hps Hout Hch Hkey) as Ha.
  set (h1 := <[p := n1]> h) in *.
  set (rest := bind (deref p) _) in *.
  assert (children_stored h1 p t) as Hcst.
  { intros i c Hi. unfold h1. rewrite lookup_insert_ne.
    - by apply (stored_children h p t).
    - rewrite <- (app_nil_r p) at 1. intros Heq. by apply app_inv_head in Heq. }
  assert (rest {| heap := h1; namespaces := m |} =
          match children (fields t) with
          | None => Ok tt {| heap := h1; namespaces := m |}
          | Some _ =>
              match forM_ (λ l, Transform.walk fuel l (parents ++ [p]))
                      ((λ ic, p ++ [ic.1]) <$> kept t)
                      {| heap := h1; namespaces := m |} with
              | Ok _ s2 =>
                  update p (set_children (Some ((λ ic, p ++ [ic.1]) <$> kept t))) s2
              | Throw e => Throw e
              | Dangling => Dangling
              | OutOfFuel => OutOfFuel
              end
          end) as Hrest.
  { unfold rest. unfold bind at 1. unfold deref at 1. simpl heap.
    unfold h1 at 1. rewrite lookup_insert_eq. rewrite Hch, children_object_at.
    destruct (children (fields t)) as [cs|] eqn:Hcs; simpl; [|done].
    assert (subtrees t = cs) as <- by (unfold subtrees; by rewrite Hcs).
    unfold bind at 1. rewrite (filter_stored h1 m p t Hcst). done. }
  rewrite Hrest in Ha |- *. clear Hrest.
  destruct (children (fields t)) as [cs|] eqn:Hcs.
  2:{ assert (kept t = []) as ->; [|done].
      unfold kept, ichildren, subtrees. by rewrite Hcs. }
  assert (parents_in h1 (parents ++ [p]) (ks ++ [key (fields t)])) as Hps1.
  { apply Forall2_app.
    - apply (parents_in_frame h); [done|]. intros l Hl. unfold h1.
      apply lookup_insert_ne. intros Heq. apply (Hout l [] Hl).
      by rewrite app_nil_r.
    - constructor; [|constructor]. exists n1. unfold h1.
      by rewrite lookup_insert_eq. }
  assert (∀ l i r, l ∈ parents ++ [p] → l ≠ p ++ i :: r) as Hout1.
  { intros l i r [Hl|Hl]%elem_of_app.
    - by apply Hout.
    - apply list_elem_of_singleton in Hl as ->. apply app_cons_ne. }
  assert (∀ i c, (i, c) ∈ kept t →
            (height c ≤ fuel)%nat ∧ stored h1 (p ++ [i]) c) as Hics.
  { intros i c [Hi Hf]%kept_lookup. split.
    - apply height_child in Hi. lia.
    - intros r s Hr. unfold h1. rewrite lookup_insert_ne.
      + by apply (stored_child h p t i c Hst Hi).
      + rewrite app_cons_eq. apply app_cons_ne. }
  pose proof (loop_exact fuel _ p _ Hx (kept t) h1 m (kept_NoDup t)
                Hics Hps1 Hout1) as Hloop.
  destruct (forM_ _ _ _) as [[] [h2 m2]|e| |]; simpl in Hloop |- *; try done.
  unfold update in Ha |- *. simpl heap in Ha |- *. by destruct (h2 !! p).
Qed.

Theorem walk_exact fuel : exact_spec fuel.
Proof.
  induction fuel as [|fuel IH]; intros t p parents ks h m Hh Hst Hps Hout.
  { pose proof (height_pos t). lia. }
  pose proof (stored_root _ _ _ Hst) as Hp.
  change (Transform.walk (S fuel) p parents) with
    (let! _ := Transform.visit p parents in
     let! n := deref p in
     match children n with
     | None => ret tt
     | Some cs =>
         let! children :=
           filterM (λ l, let! x := deref l in ret (Transform.filter x)) cs in
         let! _ := forM_ (λ l, Transform.walk fuel l (parents ++ [p])) children in
         update p (set_children (Some children))
     end).
  unfold bind at 1. rewrite (visit_stored h m p t parents ks Hst Hps).
  cbv zeta. rewrite visits_eq.
  destruct (skipped t) eqn:Hsk.
  - apply exact_cons; [unfold visit_error; simpl; by rewrite Hsk|].
    unfold assign. simpl. rewrite (skipped_registered t Hsk).
    rewrite <- (insert_id h p (object_at p t) Hp) at 1.
    by apply (after_exact fuel ks p parents t h m (object_at p t)).
  - destruct (annotated _ (object_at p t)) as [e|n1] eqn:Han.
    + apply (annotated_inl _ (object_at p t)) in Han.
      simpl. unfold visit_error. simpl. rewrite Hsk.
      change (type (object_at p t)) with (type (fields t)) in Han.
      by rewrite Han.
    + apply exact_cons.
      { unfold visit_error. simpl. rewrite Hsk. unfold annotated in Han.
        change (type (object_at p t)) with (type (fields t)) in Han.
        by destruct (event_of (type (fields t))). }
      apply annotated_inr in Han as (Hch & Hkey & _).
      by apply (after_exact fuel ks p parents t h _ n1).
Qed.

Lemma elem_of_visits_of ks p (ics : list (nat * tree)) v :
  v ∈ visits_of ks p ics ↔ ∃ i c, (i, c) ∈ ics ∧ v ∈ visits ks (p ++ [i]) c.
Proof.
  unfold visits_of. rewrite list_elem_of_join. split.
  - intros (l & Hv & ([i c] & -> & Hic)%list_elem_of_fmap). by exists i, c.
  - intros (i & c & Hic & Hv). eexists. split; [exact Hv|].
    by apply (list_elem_of_fmap_2' _ _ (i, c)).
Qed.

(** The calls listed by [visits] are the calls at the positions the walk
    reaches, each with the name computed there. *)
Lemma visits_reached t : ∀ ks p q s fq,
  (q, s, fq) ∈ visits ks p t ↔
  ∃ r, q = p ++ r ∧ reached t r = Some s ∧ fq = name_below ks t r s.
Proof.
  remember (height t) as n eqn:Hn. assert (height t ≤ n)%nat as Hle by lia.
  clear Hn. revert t Hle.
  induction n as [n IH] using lt_wf_ind. intros t Hle ks p q s fq.
  rewrite visits_eq, elem_of_cons, elem_of_visits_of. split.
  - intros [[= -> -> ->]|(i & c & Hic & Hv)].
    + exists []. by rewrite app_nil_r, name_below_nil.
    + pose proof Hic as [Hi Hf]%kept_lookup.
      apply (IH (height c)) in Hv as (r & -> & Hr & ->);
        [|apply height_child in Hi; lia|done].
      exists (i :: r). rewrite app_cons_eq, (reached_kept t i c r Hic).
      by rewrite (name_below_cons ks t i c).
  - intros ([|i r] & -> & Hr & ->).
    + left. simpl in Hr. injection Hr as <-.
      by rewrite app_nil_r, name_below_nil.
    + right. apply reached_cons in Hr as (c & Hic & Hr).
      pose proof Hic as [Hi Hf]%kept_lookup.
      exists i, c. split; [done|].
      apply (IH (height c)); [apply height_child in Hi; lia|done|].
      exists r. rewrite app_cons_eq. by rewrite (name_below_cons ks t i c).
Qed.

Lemma transform_exact t :
  match transform t with
  | Ok m σ =>
      first_error (visits [] [] t) = None
      ∧ m = foldl assign ∅ (visits [] [] t)
  | Throw e => first_error (visits [] [] t) = Some e
  | Dangling | OutOfFuel => False
  end.
Proof.
  unfold transform, Transform.run, bind.
  assert (parents_in (load t) [] []) as Hps by constructor.
  assert (∀ (l : loc) r, l ∈ [] → l ≠ [] ++ r) as Hout.
  { intros l r Hl. by apply elem_of_nil in Hl. }
  pose proof (walk_exact (height t) t [] [] [] (load t) ∅
                (le_n _) (load_stored t) Hps Hout) as H.
  destruct (Transform.walk _ _ _ _) as [[] σ|e| |]; simpl in H |- *; done.
Qed.

(** X15: the transformer throws the first error in the order of the walk
    (a node before its children, the children in their order), and no
    other: it throws [e] exactly when [e] is the error of the first call of
    [visit] that throws. *)
Theorem X15_first_error_is_thrown t e :
  transform t = Throw e ↔ first_error (visits [] [] t) = Some e.
Proof.
  pose proof (transform_exact t) as H.
  destruct (transform t) as [m σ|e'| |]; try done.
  - destruct H as [H _]. rewrite H. split; intros ?; done.
  - rewrite H. split; intros [= ->]; done.
Qed.

(** X16: the mapping the transformer returns is the one that the
    assignments of the visited namespaces with a child of another kind
    make, in the order of the walk, on an empty object. *)
Theorem X16_mapping_is_assignments_in_order t m σ :
  transform t = Ok m σ → m = foldl assign ∅ (visits [] [] t).
Proof.
  intros Ht. pose proof (transform_exact t) as H. rewrite Ht in H.
  by destruct H.
Qed.

(** X16 on [project1]. *)
Lemma X16_witness :
  transform Examples.project1 = Ok {[ "chrome.tabs" := [0; 0] ]} Examples.state1
  ∧ ({[ "chrome.tabs" := [0; 0] ]} : gmap string loc)
    = foldl assign ∅ (visits [] [] Examples.project1).
Proof.
  assert (transform Examples.project1
          = Ok {[ "chrome.tabs" := [0; 0] ]} Examples.state1) as H
    by (vm_compute; reflexivity).
  split; [exact H|].
  exact (X16_mapping_is_assignments_in_order _ _ _ H).
Defined.

Lemma foldl_assign_other vs m k :
  (∀ v, v ∈ vs → registered v.1.2 = true → v.2 ≠ k) →
  foldl assign m vs !! k = m !! k.
Proof.
  revert m. induction vs as [|v vs IH]; intros m Hno; [done|].
  simpl. rewrite IH.
  - unfold assign. destruct (registered v.1.2) eqn:Hreg; [|done].
    rewrite set_property_lookup, bool_decide_false; [done|].
    intros [_ Heq]. by apply (Hno v (list_elem_of_here _ _) Hreg).
  - intros v' Hv'. apply Hno. apply elem_of_cons. by right.
Qed.

(** X17: when several visited namespaces with a child of another kind have
    the same fully-qualified name, the mapping holds the one the walk
    visits last: an entry is the namespace of the last call of [visit]
    that assigns its key. *)
Theorem X17_last_assignment_wins t m σ vs1 q s k vs2 :
  transform t = Ok m σ →
  visits [] [] t = vs1 ++ (q, s, k) :: vs2 →
  registered s = true → k ≠ "__proto__" →
  (∀ v, v ∈ vs2 → registered v.1.2 = true → v.2 ≠ k) →
  m !! k = Some q.
Proof.
  intros Ht Hvs Hreg Hk Hlast.
  pose proof (transform_exact t) as H. rewrite Ht in H.
  destruct H as [_ ->]. rewrite Hvs, foldl_app. simpl. rewrite (foldl_assign_other vs2 _ k Hlast).
  unfold assign. simpl. rewrite Hreg, set_property_lookup.
  by rewrite bool_decide_true.
Qed.

(** X17 on [project17]: the namespace with the empty name is visited
    after its parent and takes the key [a] from it. *)
Lemma X17_witness :
  transform Examples.project17 = Ok {[ "a" := [0; 1] ]} Examples.state17
  ∧ ({[ "a" := [0; 1] ]} : gmap string loc) !! "a" = Some [0; 1].
Proof.
  assert (transform Examples.project17
          = Ok {[ "a" := [0; 1] ]} Examples.state17) as H
    by (vm_compute; reflexivity).
  split; [exact H|].
  apply (X17_last_assignment_wins Examples.project17 _ _
           [ ([], Examples.project17, "proj");
             ([0], Examples.decl "a" "Namespace"
                     (Some [ Examples.decl "f" "Function" None;
                             Examples.decl "" "Namespace"
                               (Some [ Examples.decl "g" "Function" None ]) ]),
              "a");
             ([0; 0], Examples.decl "f" "Function" None, "a.f") ]
           [0; 1]
           (Examples.decl "" "Namespace"
              (Some [ Examples.decl "g" "Function" None ]))
           "a"
           [ ([0; 1; 0], Examples.decl "g" "Function" None, "a.g") ] H).
  - reflexivity.
  - reflexivity.
  - discriminate.
  - intros v Hv Hreg. apply list_elem_of_singleton in Hv as ->. discriminate.
Defined.

End Order.

